(** * sync_roles: extraction of privilege tables and synthesis of the role schema

    Shallow embedding of [sync_roles.py].  Python strings are sequences of
    Unicode code points, so a [str] is a list of code points ([N]); lists of
    rows and cells are Rocq lists; the [set] of privileges is a [gset]; the
    category [dict] is a [gmap]. *)

From Stdlib Require Import NArith ZArith String Ascii.
From stdpp Require Import base decidable list sorting gmap.

Local Open Scope N_scope.

(** ** Strings *)

Abbreviation str := (list N).

(** An ASCII literal as a Python string. *)
Fixpoint lit (s : string) : str :=
  match s with
  | EmptyString => []
  | String a s' => N_of_ascii a :: lit s'
  end.

Definition SPACE : N := 0x20.
Definition NBSP : N := 0xa0.

(** [str.isspace] for one code point, which is also the class [\s] of [re] on
    [str] patterns and what [str.strip] removes (CPython's
    [Py_UNICODE_ISSPACE]). *)
Definition isspace (c : N) : bool :=
  ((0x09 <=? c) && (c <=? 0x0d)) || ((0x1c <=? c) && (c <=? 0x20))
  || (c =? 0x85) || (c =? 0xa0) || (c =? 0x1680)
  || ((0x2000 <=? c) && (c <=? 0x200a))
  || (c =? 0x2028) || (c =? 0x2029) || (c =? 0x202f) || (c =? 0x205f)
  || (c =? 0x3000).

(** [s.replace(NBSP, SPACE)], a replacement of single code points. *)
Definition replace_nbsp (s : str) : str :=
  map (fun c => if c =? NBSP then SPACE else c) s.

(** [re.sub(r"\s+", " ", s)]: the scan emits one space when it enters a run
    of whitespace and nothing for the rest of the run; [in_run] tells whether
    the previous code point was whitespace. *)
Fixpoint sub_ws (in_run : bool) (s : str) : str :=
  match s with
  | [] => []
  | c :: s' =>
      if isspace c
      then (if in_run then sub_ws true s' else SPACE :: sub_ws true s')
      else c :: sub_ws false s'
  end.

Fixpoint lstrip (s : str) : str :=
  match s with
  | [] => []
  | c :: s' => if isspace c then lstrip s' else s
  end.

Fixpoint rstrip (s : str) : str :=
  match s with
  | [] => []
  | c :: s' =>
      match rstrip s' with
      | [] => if isspace c then [] else [c]
      | r => c :: r
      end
  end.

(** [s.strip()] *)
Definition strip (s : str) : str := rstrip (lstrip s).

Definition clean (s : str) : str :=
  let s := replace_nbsp s in
  let s := sub_ws false s in
  strip s.

(** [spaced prev s]: every whitespace code point of [s] is an ordinary space
    and stands alone; [prev] tells whether a whitespace precedes [s]. *)
Fixpoint spaced (prev : bool) (s : str) : bool :=
  match s with
  | [] => true
  | c :: s' =>
      if isspace c then (c =? SPACE) && negb prev && spaced true s'
      else spaced false s'
  end.

(** The words of a string: its maximal runs of non-whitespace code points. *)
Fixpoint words_aux (cur : str) (s : str) : list str :=
  match s with
  | [] => match cur with [] => [] | _ => [reverse cur] end
  | c :: s' =>
      if isspace c
      then match cur with [] => words_aux [] s' | _ => reverse cur :: words_aux [] s' end
      else words_aux (c :: cur) s'
  end.

Definition words (s : str) : list str := words_aux [] s.

(** [sep.join(ws)] for a separator of one code point. *)
Fixpoint join (sep : N) (ws : list str) : str :=
  match ws with
  | [] => []
  | [w] => w
  | w :: ws' => w ++ sep :: join sep ws'
  end.

Definition unwords (ws : list str) : str := join SPACE ws.

(** ** Substrings, splitting and ordering *)

Fixpoint is_prefix (p s : str) : bool :=
  match p, s with
  | [], _ => true
  | _ :: _, [] => false
  | a :: p', b :: s' => (a =? b) && is_prefix p' s'
  end.

(** [needle in hay] *)
Fixpoint contains (needle hay : str) : bool :=
  is_prefix needle hay
  || match hay with
     | [] => false
     | _ :: hay' => contains needle hay'
     end.

(** [s.split(sep, 1)] when [sep in s]: the text before the first occurrence
    of [sep] and the text after it. *)
Fixpoint split_once (sep s : str) : str * str :=
  if is_prefix sep s then ([], drop (length sep) s)
  else match s with
       | [] => ([], [])
       | c :: s' => let '(a, r) := split_once sep s' in (c :: a, r)
       end.

(** [s.split(sep)] for a separator of one code point. *)
Fixpoint split_on (sep : N) (s : str) : list str :=
  match s with
  | [] => [[]]
  | c :: s' =>
      if c =? sep then [] :: split_on sep s'
      else match split_on sep s' with
           | w :: ws => (c :: w) :: ws
           | [] => [[c]]
           end
  end.

(** Comparison of Python strings: lexicographic on code points. *)
Fixpoint str_leb (a b : str) : bool :=
  match a, b with
  | [], _ => true
  | _ :: _, [] => false
  | x :: a', y :: b' =>
      if x <? y then true else if y <? x then false else str_leb a' b'
  end.

Definition str_le (a b : str) : Prop := str_leb a b = true.
Definition str_lt (a b : str) : Prop := str_le a b ∧ a ≠ b.

#[global] Instance str_le_dec : RelDecision str_le :=
  λ a b, decide (str_leb a b = true).

(** [sorted(xs)] on strings *)
Definition sorted (xs : list str) : list str := merge_sort str_le xs.

(** [needle] occurs in [hay]. *)
Definition substring (needle hay : str) : Prop :=
  ∃ pre post, hay = pre ++ needle ++ post.

(** ** Case mapping

    [str.lower] and [str.upper] follow the Unicode tables of the interpreter,
    which the repository does not contain.  They are taken as an interface
    together with what Python guarantees of them: on ASCII text they are the
    ASCII case shifts, and upper-casing never deletes a code point. *)

Definition is_ascii (c : N) : Prop := c < 128.

Definition ascii_lower (c : N) : N :=
  if (0x41 <=? c) && (c <=? 0x5a) then c + 32 else c.

Definition ascii_upper (c : N) : N :=
  if (0x61 <=? c) && (c <=? 0x7a) then c - 32 else c.

Class StrCase := {
  lower : str → str;
  upper : str → str;
  lower_ascii : ∀ s, Forall is_ascii s → lower s = map ascii_lower s;
  upper_ascii : ∀ s, Forall is_ascii s → upper s = map ascii_upper s;
  upper_nil : ∀ s, upper s = [] → s = [];
}.

(** ** Documents

    The capabilities of the parsed tree that the code uses: the tables of a
    document in document order ([soup.find_all("table")]), the rows of a table
    ([table.find_all("tr")], of which [table.find("tr")] is the first), and
    for a row the text of its header cells ([th.get_text()] over
    [tr.find_all("th")]) and of its data cells
    ([td.get_text(" ", strip=True)] over [tr.find_all("td")]). *)

Record Tr := { ths : list str; tds : list str }.
Abbreviation Table := (list Tr).
Abbreviation Soup := (list Table).

(** ** Exceptions *)

Inductive api := Classic | Prod.

Inductive exn :=
| TableNotFound (a : api)
| UnexpectedHeaders (a : api) (headers : list str)
| IndexError
| FetchError (url : str)
| WriteError (path : str).

Inductive result (A : Type) :=
| Ok (a : A)
| Raise (e : exn).
Arguments Ok {A} a.
Arguments Raise {A} e.

Definition bind {A B} (m : result A) (f : A → result B) : result B :=
  match m with
  | Ok a => f a
  | Raise e => Raise e
  end.

Notation "'let*' x ':=' m 'in' k" := (bind m (fun x => k))
  (at level 10, x name, m at level 100, k at level 200).

(** [l[i]] with Python's negative indices; out of range raises. *)
Definition getitem {A} (l : list A) (i : Z) : result A :=
  let n := Z.of_nat (length l) in
  let j := if (i <? 0)%Z then (n + i)%Z else i in
  if ((0 <=? j) && (j <? n))%Z
  then match l !! Z.to_nat j with Some a => Ok a | None => Raise IndexError end
  else Raise IndexError.

(** ** Rows *)

Module ClassicRow.
Record t := mk { endpoint : str; operation : str; required_privileges : str }.
End ClassicRow.

Module ProdRow.
Record t := mk {
    endpoint : str;
    operation : str;
    privilege_requirements : str;
    deprecation_date : str;
}.
End ProdRow.

#[global] Instance ClassicRow_eq_dec : EqDecision ClassicRow.t.
Proof. solve_decision. Defined.

#[global] Instance ProdRow_eq_dec : EqDecision ProdRow.t.
Proof. solve_decision. Defined.

(** ** The schema document *)

Module Endpoint.
Record t := mk {
  endpoint : str;
  operation : str;
  privileges : list str;
  deprecation_date : option str;   (* [None] is JSON [null] *)
}.
End Endpoint.

Module Metadata.
Record t := mk { description : str; source : str; documentation_urls : list str }.
End Metadata.

Module ApiSection.
Record t := mk { description : str; endpoints : list Endpoint.t }.
End ApiSection.

Module Schema.
Record t := mk {
  version : str;
  last_updated : str;
  metadata : Metadata.t;
  privilege_categories : gmap str (list str);
  all_privileges : list str;
  classic_api : ApiSection.t;
  jamf_pro_api : ApiSection.t;
}.
End Schema.

(** What [main] hands to [json.dumps] for each of the four files. *)
Inductive Document :=
| FullSchema (schema : Schema.t)
| EndpointsOnly (version last_updated : str) (endpoints : list Endpoint.t)
| PrivilegeCategories (version : str) (categories : gmap str (list str))
    (all_privileges : list str).

(** A file holds the whole text of a document, or what a write that raised
    has left of it: [Path.write_text] opens the file for writing, which
    empties it, and only then encodes and writes the text. *)
Inductive FileState :=
| Complete (d : Document)
| Damaged.

(** The part of the file system the program touches. *)
Record World := { dirs : gset str; files : gmap str FileState }.

Definition mkdir (p : str) (w : World) : World :=
  {| dirs := {[p]} ∪ dirs w; files := files w |}.

(** What becomes of one [write_text]: the text is stored; or the call raises
    before the file is opened, and the file is as it was; or it raises once
    the file is open. *)
Inductive write_outcome :=
| Stored
| Refused (e : exn)
| Broken (e : exn).

Definition CLASSIC_URL : str :=
  lit "https://developer.jamf.com/jamf-pro/docs/classic-api-minimum-required-privileges-and-endpoint-mapping".
Definition PROD_URL : str :=
  lit "https://developer.jamf.com/jamf-pro/docs/privileges-and-deprecations".
Definition ROLES_DIR : str := lit "roles".
Definition DOCS_DIR : str := lit "docs".

Definition COMMA : N := 0x2c.
Definition SEP : str := lit " - ".
Definition NA : str := lit "N/A".

(** [d.setdefault(k, v)] *)
Definition setdefault (k : str) (v : list str) (d : gmap str (list str)) :
    gmap str (list str) :=
  match d !! k with
  | Some _ => d
  | None => <[k := v]> d
  end.

(** [[p.strip() for p in s.split(",") if p.strip()]] *)
Definition split_privs (s : str) : list str :=
  map strip (filter (λ p, strip p ≠ []) (split_on COMMA s)).

(** The body of the loop over [sorted(all_privs)] in [build_schema]. *)
Definition categorize (privilege : str) : str * str :=
  if contains SEP privilege
  then let '(action, resource) := split_once SEP privilege in (strip action, resource)
  else (lit "Other", privilege).

Definition add_category (categories : gmap str (list str)) (privilege : str) :
    gmap str (list str) :=
  let '(action, resource) := categorize privilege in
  let categories := setdefault action [] categories in
  let l := default [] (categories !! action) in
  if decide (resource ∈ l) then categories
  else <[action := l ++ [resource]]> categories.

(** The loop that fills [out] from [rows] with the set [seen] of keys, as
    both parsers end; [key] builds the tuple [k] of a row. *)
Fixpoint dedup {R K} `{Countable K} (key : R → K) (seen : gset K) (out rows : list R) :
    list R :=
  match rows with
  | [] => out
  | r :: rows' =>
      let k := key r in
      if decide (k ∈ seen) then dedup key seen out rows'
      else dedup key ({[k]} ∪ seen) (out ++ [r]) rows'
  end.

Section Sync.
Context `{StrCase}.

(** ** TableLocator *)

(** The header labels [find_best_table] computes from a header row. *)
Definition header_labels (header_row : Tr) : list str :=
  map (λ th, lower (clean th)) (ths header_row).

Fixpoint find_best_table (soup : Soup) (required_headers : list str) :
    option (list str * Table) :=
  let required := map lower required_headers in
  match soup with
  | [] => None
  | table :: soup' =>
      match table with
      | [] => find_best_table soup' required_headers
      | header_row :: _ =>
          match ths header_row with
          | [] => find_best_table soup' required_headers
          | _ :: _ =>
              let headers := header_labels header_row in
              if forallb (λ req, existsb (contains req) headers) required
              then Some (headers, table)
              else find_best_table soup' required_headers
          end
      end
  end.

(** ** ColumnResolver *)

Fixpoint idx_from (i : Z) (key : str) (headers : list str) : Z :=
  match headers with
  | [] => (-1)%Z
  | h :: headers' => if contains key h then i else idx_from (i + 1)%Z key headers'
  end.

Definition idx_contains (headers : list str) (key : str) : Z :=
  idx_from 0%Z (lower key) headers.

(** ** RowExtractor, classic variant *)

(** One turn of the loop over [table.find_all("tr")]: [Ok None] is
    [continue], [Ok (Some r)] is [rows.append(r)]. *)
Definition classic_row (i_endpoint i_operation i_priv : Z) (tr : Tr) :
    result (option ClassicRow.t) :=
  match tds tr with
  | [] => Ok None
  | _ :: _ =>
      let cells := map clean (tds tr) in
      if (Z.max (Z.max i_endpoint i_operation) i_priv >=? Z.of_nat (length cells))%Z
      then Ok None
      else
        let* endpoint := getitem cells i_endpoint in
        let* op := getitem cells i_operation in
        let operation := upper op in
        let* privs := getitem cells i_priv in
        if bool_decide (endpoint = []) || bool_decide (operation = [])
        then Ok None
        else Ok (Some (ClassicRow.mk endpoint operation privs))
  end.

Fixpoint classic_rows (i_endpoint i_operation i_priv : Z) (trs : list Tr) :
    result (list ClassicRow.t) :=
  match trs with
  | [] => Ok []
  | tr :: trs' =>
      let* r := classic_row i_endpoint i_operation i_priv tr in
      let* rows := classic_rows i_endpoint i_operation i_priv trs' in
      Ok (match r with Some r => r :: rows | None => rows end)
  end.

Definition classic_key (r : ClassicRow.t) : str * str * str :=
  (ClassicRow.endpoint r, ClassicRow.operation r, ClassicRow.required_privileges r).

Definition CLASSIC_HEADERS : list str :=
  [lit "Endpoint"; lit "Operation"; lit "Required Privilege"].

Definition parse_classic (soup : Soup) : result (list ClassicRow.t) :=
  match find_best_table soup CLASSIC_HEADERS with
  | None => Raise (TableNotFound Classic)
  | Some (headers, table) =>
      let i_endpoint := idx_contains headers (lit "endpoint") in
      let i_operation := idx_contains headers (lit "operation") in
      let i_priv := idx_contains headers (lit "required") in
      if (Z.min (Z.min i_endpoint i_operation) i_priv <? 0)%Z
      then Raise (UnexpectedHeaders Classic headers)
      else
        let* rows := classic_rows i_endpoint i_operation i_priv table in
        Ok (dedup classic_key ∅ [] rows)
  end.

(** ** RowExtractor, pro variant *)

Definition prod_row (i_endpoint i_operation i_priv i_depr : Z) (tr : Tr) :
    result (option ProdRow.t) :=
  match tds tr with
  | [] => Ok None
  | _ :: _ =>
      let cells := map clean (tds tr) in
      if (Z.max (Z.max (Z.max i_endpoint i_operation) i_priv) i_depr
            >=? Z.of_nat (length cells))%Z
      then Ok None
      else
        let* endpoint := getitem cells i_endpoint in
        let* op := getitem cells i_operation in
        let operation := upper op in
        let* privs := getitem cells i_priv in
        let* d := getitem cells i_depr in
        let depr := if bool_decide (d = []) then NA else d in
        if bool_decide (endpoint = []) || bool_decide (operation = [])
        then Ok None
        else Ok (Some (ProdRow.mk endpoint operation privs depr))
  end.

Fixpoint prod_rows (i_endpoint i_operation i_priv i_depr : Z) (trs : list Tr) :
    result (list ProdRow.t) :=
  match trs with
  | [] => Ok []
  | tr :: trs' =>
      let* r := prod_row i_endpoint i_operation i_priv i_depr tr in
      let* rows := prod_rows i_endpoint i_operation i_priv i_depr trs' in
      Ok (match r with Some r => r :: rows | None => rows end)
  end.

Definition prod_key (r : ProdRow.t) : str * str * str * str :=
  (ProdRow.endpoint r, ProdRow.operation r, ProdRow.privilege_requirements r,
   ProdRow.deprecation_date r).

Definition PROD_HEADERS : list str :=
  [lit "Endpoint"; lit "Operation"; lit "Privilege Requirements"; lit "Deprecation Date"].

Definition parse_prod (soup : Soup) : result (list ProdRow.t) :=
  match find_best_table soup PROD_HEADERS with
  | None => Raise (TableNotFound Prod)
  | Some (headers, table) =>
      let i_endpoint := idx_contains headers (lit "endpoint") in
      let i_operation := idx_contains headers (lit "operation") in
      let i_priv := idx_contains headers (lit "privilege") in
      let i_depr := idx_contains headers (lit "deprecation") in
      if (Z.min (Z.min (Z.min i_endpoint i_operation) i_priv) i_depr <? 0)%Z
      then Raise (UnexpectedHeaders Prod headers)
      else
        let* rows := prod_rows i_endpoint i_operation i_priv i_depr table in
        Ok (dedup prod_key ∅ [] rows)
  end.

(** ** SchemaBuilder *)

Definition classic_endpoint (r : ClassicRow.t) : Endpoint.t :=
  Endpoint.mk (ClassicRow.endpoint r) (ClassicRow.operation r)
    (split_privs (ClassicRow.required_privileges r)) None.

Definition classic_step (acc : list Endpoint.t * gset str) (r : ClassicRow.t) :
    list Endpoint.t * gset str :=
  let '(classic_endpoints, all_privs) := acc in
  let privs := split_privs (ClassicRow.required_privileges r) in
  (classic_endpoints ++ [classic_endpoint r], all_privs ∪ list_to_set privs).

(** The two statements that compute [deprecation] in [build_schema]. *)
Definition deprecation_of (deprecation_date : str) : option str :=
  let deprecation :=
    if bool_decide (deprecation_date = []) then NA else strip deprecation_date in
  if bool_decide (upper deprecation = NA) then None else Some deprecation.

Definition prod_endpoint (r : ProdRow.t) : Endpoint.t :=
  Endpoint.mk (ProdRow.endpoint r) (ProdRow.operation r)
    (split_privs (ProdRow.privilege_requirements r))
    (deprecation_of (ProdRow.deprecation_date r)).

Definition prod_step (acc : list Endpoint.t * gset str) (r : ProdRow.t) :
    list Endpoint.t * gset str :=
  let '(prod_endpoints, all_privs) := acc in
  let privs := split_privs (ProdRow.privilege_requirements r) in
  (prod_endpoints ++ [prod_endpoint r], all_privs ∪ list_to_set privs).

(** [now] is [datetime.now().isoformat()]. *)
Definition build_schema (now : str) (classic_rows : list ClassicRow.t)
    (prod_rows : list ProdRow.t) : Schema.t :=
  let '(classic_endpoints, all_privs) := foldl classic_step ([], ∅) classic_rows in
  let '(prod_endpoints, all_privs) := foldl prod_step ([], all_privs) prod_rows in
  let categories := foldl add_category ∅ (sorted (elements all_privs)) in
  Schema.mk (lit "1.0.0") now
    (Metadata.mk (lit "Jamf Pro API Role and Privilege Mappings")
       (lit "Jamf Developer Documentation") [PROD_URL; CLASSIC_URL])
    categories
    (sorted (elements all_privs))
    (ApiSection.mk (lit "Classic API (XML-based) endpoints and required privileges")
       classic_endpoints)
    (ApiSection.mk (lit "Jamf Pro API (REST-based) endpoints and required privileges")
       prod_endpoints).

(** ** The run

    The network, the clock and the disk are the environment of [main]:
    [fetch_html] gives what the request for a URL returns or raises,
    [BeautifulSoup] is the HTML parser, [now] the time stamp, and [disk] tells
    what becomes of a write of a document to a path in a state of the file
    system.  Creating a directory is taken to succeed; the progress lines
    printed on the way are left out. *)

Section Main.
Variable html : Type.
Variable fetch_html : str → result html.
Variable BeautifulSoup : html → Soup.
Variable now : str.
Variable disk : str → Document → World → write_outcome.

(** [path.write_text(json.dumps(d, ...), encoding="utf-8")] *)
Definition write_text (p : str) (d : Document) (w : World) : result unit * World :=
  match disk p d w with
  | Stored => (Ok tt, {| dirs := dirs w; files := <[p := Complete d]> (files w) |})
  | Refused e => (Raise e, w)
  | Broken e => (Raise e, {| dirs := dirs w; files := <[p := Damaged]> (files w) |})
  end.

Definition roles_file (name : string) : str := ROLES_DIR ++ lit "/" ++ lit name.

Definition JAMF_ROLES : str := roles_file "jamf-roles.json".
Definition CLASSIC_ROLES : str := roles_file "classic-api-roles.json".
Definition PROD_ROLES : str := roles_file "jamf-pro-api-roles.json".
Definition PRIV_CATEGORIES : str := roles_file "privilege-categories.json".

Definition classic_only (schema : Schema.t) : Document :=
  EndpointsOnly (Schema.version schema) (Schema.last_updated schema)
    (ApiSection.endpoints (Schema.classic_api schema)).

Definition prod_only (schema : Schema.t) : Document :=
  EndpointsOnly (Schema.version schema) (Schema.last_updated schema)
    (ApiSection.endpoints (Schema.jamf_pro_api schema)).

Definition priv_cats (schema : Schema.t) : Document :=
  PrivilegeCategories (Schema.version schema) (Schema.privilege_categories schema)
    (Schema.all_privileges schema).

Definition main (w : World) : result Z * World :=
  let w := mkdir ROLES_DIR w in
  let w := mkdir DOCS_DIR w in
  match fetch_html CLASSIC_URL with
  | Raise e => (Raise e, w)
  | Ok classic_html =>
  match fetch_html PROD_URL with
  | Raise e => (Raise e, w)
  | Ok prod_html =>
  match parse_classic (BeautifulSoup classic_html) with
  | Raise e => (Raise e, w)
  | Ok classic_rows =>
  match parse_prod (BeautifulSoup prod_html) with
  | Raise e => (Raise e, w)
  | Ok prod_rows =>
      let schema := build_schema now classic_rows prod_rows in
      match write_text JAMF_ROLES (FullSchema schema) w with
      | (Raise e, w) => (Raise e, w)
      | (Ok _, w) =>
      match write_text CLASSIC_ROLES (classic_only schema) w with
      | (Raise e, w) => (Raise e, w)
      | (Ok _, w) =>
      match write_text PROD_ROLES (prod_only schema) w with
      | (Raise e, w) => (Raise e, w)
      | (Ok _, w) =>
      match write_text PRIV_CATEGORIES (priv_cats schema) w with
      | (Raise e, w) => (Raise e, w)
      | (Ok _, w) => (Ok 0%Z, w)
      end end end end
  end end end end.

(** [raise SystemExit(main())]: the status of the process is what [main]
    returns, and 1 when an exception reaches the top level. *)
Definition exit_status (w : World) : Z :=
  match fst (main w) with
  | Ok status => status
  | Raise _ => 1%Z
  end.

(** The fatal conditions of a run: a fetch raises, or a parser raises on
    the document fetched for it. *)
Definition fatal : Prop :=
  (∃ e, fetch_html CLASSIC_URL = Raise e)
  ∨ (∃ e, fetch_html PROD_URL = Raise e)
  ∨ (∃ classic_html e,
       fetch_html CLASSIC_URL = Ok classic_html
       ∧ parse_classic (BeautifulSoup classic_html) = Raise e)
  ∨ (∃ prod_html e,
       fetch_html PROD_URL = Ok prod_html
       ∧ parse_prod (BeautifulSoup prod_html) = Raise e).

(** Both documents are fetched and extracted, with these rows. *)
Definition extracted (classic_rows : list ClassicRow.t) (prod_rows : list ProdRow.t) :
    Prop :=
  ∃ classic_html prod_html,
    fetch_html CLASSIC_URL = Ok classic_html
    ∧ fetch_html PROD_URL = Ok prod_html
    ∧ parse_classic (BeautifulSoup classic_html) = Ok classic_rows
    ∧ parse_prod (BeautifulSoup prod_html) = Ok prod_rows.

(** The four files of a schema with their documents, in the order in which
    [main] writes them. *)
Definition outputs (schema : Schema.t) : list (str * Document) :=
  [(JAMF_ROLES, FullSchema schema); (CLASSIC_ROLES, classic_only schema);
   (PROD_ROLES, prod_only schema); (PRIV_CATEGORIES, priv_cats schema)].

(** Writing documents one after the other until a write raises. *)
Fixpoint write_outputs (docs : list (str * Document)) (w : World) : result Z * World :=
  match docs with
  | [] => (Ok 0%Z, w)
  | (p, d) :: docs' =>
      match write_text p d w with
      | (Raise e, w) => (Raise e, w)
      | (Ok _, w) => write_outputs docs' w
      end
  end.

(** The files after the four documents of a schema are written. *)
Definition written (schema : Schema.t) (fs : gmap str FileState) : gmap str FileState :=
  <[PRIV_CATEGORIES := Complete (priv_cats schema)]>
    (<[PROD_ROLES := Complete (prod_only schema)]>
       (<[CLASSIC_ROLES := Complete (classic_only schema)]>
          (<[JAMF_ROLES := Complete (FullSchema schema)]> fs))).

(** Both documents were extracted and all four files are written, or no
    file is written at all. *)
Definition all_or_nothing (w : World) : Prop :=
  (∃ classic_rows prod_rows,
     extracted classic_rows prod_rows
     ∧ files (snd (main w)) = written (build_schema now classic_rows prod_rows) (files w))
  ∨ files (snd (main w)) = files w.

End Main.
End Sync.

(** ** A case mapping to run the definitions on ASCII text

    Code points outside ASCII are left as they are. *)

Definition ascii_case : StrCase :=
  {| lower := map ascii_lower;
     upper := map ascii_upper;
     lower_ascii := λ _ _, eq_refl;
     upper_ascii := λ _ _, eq_refl;
     upper_nil := λ s, match s with
                       | [] => λ _, eq_refl
                       | c :: s' => λ E, False_ind _ (eq_ind (ascii_upper c :: map ascii_upper s')
                                      (λ l, match l with [] => False | _ :: _ => True end) I [] E)
                       end |}.

(** ** Vocabulary of the statements *)

Section Vocabulary.
Context `{StrCase}.

(** A table qualifies for a list of required fragments when its first row has
    header cells and every fragment, lower-cased, occurs in a header label. *)
Definition qualifies (required_headers : list str) (table : Table) : Prop :=
  ∃ header_row rest,
    table = header_row :: rest
    ∧ ths header_row ≠ []
    ∧ ∀ req, req ∈ required_headers →
        ∃ h, h ∈ header_labels header_row ∧ substring (lower req) h.

(** The row a loop turn appends, if any. *)
Definition emitted {A} (r : result (option A)) : option A :=
  match r with
  | Ok o => o
  | Raise _ => None
  end.

(** The elements of [l] that occur neither in [earlier] nor before in [l],
    in the order of [l]. *)
Fixpoint firsts {A} `{EqDecision A} (earlier l : list A) : list A :=
  match l with
  | [] => []
  | x :: l' =>
      if decide (x ∈ earlier) then firsts earlier l'
      else x :: firsts (earlier ++ [x]) l'
  end.

Definition first_occurrences {A} `{EqDecision A} (l : list A) : list A := firsts [] l.

(** The fields of a classic row as the schema shows them: the privileges
    are the list got by splitting at commas. *)
Definition classic_fields (r : ClassicRow.t) : str * str * list str :=
  (ClassicRow.endpoint r, ClassicRow.operation r,
   split_privs (ClassicRow.required_privileges r)).

(** A row is passed over for having fewer cells than the highest index
    [top], or an empty endpoint or operation cell. *)
Definition fewer_cells_or_empty (top i_endpoint i_operation : Z) (tr : Tr) : Prop :=
  let cells := map clean (tds tr) in
  (Z.of_nat (length cells) < top)%Z
  ∨ cells !! Z.to_nat i_endpoint = Some []
  ∨ cells !! Z.to_nat i_operation = Some [].

(** [out] is [rows] without repeats: a row stays where it first occurs, a row
    that occurred before is dropped, and no two rows of [out] have the same
    [key]. *)
Definition deduplicated {R K} `{EqDecision R} (key : R → K) (rows out : list R) : Prop :=
  out = first_occurrences rows
  ∧ NoDup (key <$> out)
  ∧ (∀ r, r ∈ out ↔ r ∈ rows)
  ∧ out `sublist_of` rows
  ∧ (∀ l1 r l2, rows = l1 ++ r :: l2 → r ∉ l1 →
       out = first_occurrences l1 ++ r :: firsts (l1 ++ [r]) l2)
  ∧ (∀ l1 r l2, rows = l1 ++ r :: l2 → r ∈ l1 →
       out = first_occurrences (l1 ++ l2)).

(** Every privilege string of the rows, in the order of the rows: classic
    rows first, as [build_schema] visits them. *)
Definition privileges_seen (classic_rows : list ClassicRow.t) (prod_rows : list ProdRow.t) :
    list str :=
  flat_map (λ r, split_privs (ClassicRow.required_privileges r)) classic_rows
  ++ flat_map (λ r, split_privs (ProdRow.privilege_requirements r)) prod_rows.

(** The privileges of the schema, before sorting. *)
Definition all_privs (classic_rows : list ClassicRow.t) (prod_rows : list ProdRow.t) :
    gset str :=
  list_to_set (privileges_seen classic_rows prod_rows).

(** The resources that the privileges of a list contribute to a category. *)
Definition resources_in (action : str) (privileges : list str) : list str :=
  snd <$> filter (λ ar, ar.1 = action) (categorize <$> privileges).

(** What the pro pipeline makes of the text of a deprecation cell: the
    extractor normalizes it and stores "N/A" for an empty text, the schema
    builder maps the stored text to the field of the endpoint object. *)
Definition cell_deprecation (text : str) : option str :=
  let d := clean text in
  deprecation_of (if bool_decide (d = []) then NA else d).

(** ** Example documents *)

Definition header_tr (labels : list string) : Tr :=
  {| ths := map lit labels; tds := [] |}.

Definition data_tr (cells : list string) : Tr :=
  {| ths := []; tds := map lit cells |}.

Definition classic_header : Tr :=
  header_tr ["Endpoint"; "Operation"; "Required Privileges"]%string.

Definition prod_header : Tr :=
  header_tr ["Endpoint"; "Operation"; "Privilege Requirements"; "Deprecation Date"]%string.

(** A data row that lacks the privileges cell. *)
Definition short_tr : Tr := data_tr ["/computers"; "GET"]%string.

Definition short_soup : Soup := [[classic_header; short_tr]].

(** Two rows whose privileges cells differ only in the blank after the comma,
    and an exact repeat of the first. *)
Definition spaced_soup : Soup :=
  [[classic_header;
    data_tr ["/computers"; "get"; "Read - Computers,Update - Computers"]%string;
    data_tr ["/computers"; "GET"; "Read - Computers, Update - Computers"]%string;
    data_tr ["/computers"; "get"; "Read - Computers,Update - Computers"]%string]].

Definition prod_soup : Soup :=
  [[header_tr ["Name"]%string];
   [prod_header;
    data_tr ["/v1/a"; "get"; "Read - A"; ""]%string;
    data_tr ["/v1/a"; "get"; "Read - A"; "n/a"]%string;
    data_tr ["/v1/a"; "get"; "Read - A"; "iOS 18"]%string;
    data_tr ["/v1/b"; "post"]%string;
    data_tr ["/v1/a"; "get"; "Read - A"; "iOS 18"]%string]].

Definition spaced_rows : list ClassicRow.t :=
  [ClassicRow.mk (lit "/computers") (lit "GET") (lit "Read - Computers,Update - Computers");
   ClassicRow.mk (lit "/computers") (lit "GET") (lit "Read - Computers, Update - Computers")].

Definition prod_out : list ProdRow.t :=
  [ProdRow.mk (lit "/v1/a") (lit "GET") (lit "Read - A") (lit "N/A");
   ProdRow.mk (lit "/v1/a") (lit "GET") (lit "Read - A") (lit "n/a");
   ProdRow.mk (lit "/v1/a") (lit "GET") (lit "Read - A") (lit "iOS 18")].

(** One classic row whose privileges are not in the order of strings, and
    one whose privilege has two blanks before the hyphen. *)
Definition unsorted_rows : list ClassicRow.t :=
  [ClassicRow.mk (lit "/computers") (lit "GET") (lit "Read - Zones, Read - Accounts")].

Definition wide_rows : list ClassicRow.t :=
  [ClassicRow.mk (lit "/computers") (lit "GET") (lit "Read  - Zones")].

(** A document none of whose tables has the classic headers. *)
Definition other_soup : Soup :=
  [[]; [data_tr ["Endpoint"; "Operation"; "Required Privileges"]%string];
   [header_tr ["Endpoint"; "Operation"]%string]].

(** An environment in which both documents are fetched: the parsed
    documents stand for their own HTML. *)
Definition example_fetch (url : str) : result Soup :=
  if bool_decide (url = CLASSIC_URL) then Ok spaced_soup else Ok prod_soup.

(** A disk on which every write succeeds, and one on which the write of the
    classic file raises once the file is open. *)
Definition sound_disk (p : str) (d : Document) (w : World) : write_outcome := Stored.

Definition failing_disk (p : str) (d : Document) (w : World) : write_outcome :=
  if bool_decide (p = CLASSIC_ROLES) then Broken (WriteError p)
  else Stored.

(** A file system in which an earlier run left a damaged file and an old
    document. *)
Definition stale_world : World :=
  {| dirs := ∅;
     files := <[JAMF_ROLES := Damaged]>
                {[CLASSIC_ROLES := Complete (EndpointsOnly (lit "0.9") (lit "then") [])]} |}.

End Vocabulary.

(** * Properties *)

(** ** The text normalizer *)

Lemma isspace_SPACE : isspace SPACE = true.
Proof. reflexivity. Qed.

Lemma isspace_NBSP : isspace NBSP = true.
Proof. reflexivity. Qed.

Lemma spaced_weaken (b : bool) (s : str) : spaced true s = true → spaced b s = true.
Proof.
  destruct s as [|c s]; simpl; [done|].
  destruct (isspace c); [|done].
  rewrite andb_false_r. done.
Qed.

Lemma spaced_sub_ws (b : bool) (s : str) : spaced b (sub_ws b s) = true.
Proof.
  revert b. induction s as [|c s IH]; intros b; simpl; [done|].
  destruct (isspace c) eqn:Hc.
  - destruct b; [apply IH|].
    change (spaced false (SPACE :: sub_ws true s)) with (spaced true (sub_ws true s)).
    apply IH.
  - simpl. rewrite Hc. apply IH.
Qed.

Lemma sub_ws_spaced (b : bool) (s : str) : spaced b s = true → sub_ws b s = s.
Proof.
  revert b. induction s as [|c s IH]; intros b; simpl; [done|].
  destruct (isspace c) eqn:Hc.
  - intros [[Hsp Hb%negb_true_iff]%andb_prop Hs]%andb_prop. subst b.
    apply N.eqb_eq in Hsp. subst c. f_equal. by apply IH.
  - intros Hs. f_equal. by apply IH.
Qed.

Lemma replace_nbsp_spaced (b : bool) (s : str) : spaced b s = true → replace_nbsp s = s.
Proof.
  revert b. induction s as [|c s IH]; intros b; simpl; [done|].
  destruct (isspace c) eqn:Hc.
  - intros [[Hsp _]%andb_prop Hs]%andb_prop.
    apply N.eqb_eq in Hsp. subst c. simpl. f_equal. by eapply IH.
  - intros Hs. destruct (N.eqb_spec c NBSP) as [->|_]; [by rewrite isspace_NBSP in Hc|].
    f_equal. by eapply IH.
Qed.

Lemma spaced_lstrip (b : bool) (s : str) : spaced b s = true → spaced true (lstrip s) = true.
Proof.
  revert b. induction s as [|c s IH]; intros b; simpl; [done|].
  destruct (isspace c) eqn:Hc.
  - intros [_ Hs]%andb_prop. by eapply IH.
  - intros Hs. simpl. by rewrite Hc.
Qed.

Lemma lstrip_spaced (s : str) : spaced true s = true → lstrip s = s.
Proof.
  destruct s as [|c s]; simpl; [done|].
  destruct (isspace c); [|done]. by rewrite andb_false_r.
Qed.

Lemma rstrip_cons (c : N) (s : str) :
  rstrip (c :: s) =
    if bool_decide (rstrip s = []) then (if isspace c then [] else [c])
    else c :: rstrip s.
Proof. simpl. by destruct (rstrip s). Qed.

Lemma rstrip_idem (s : str) : rstrip (rstrip s) = rstrip s.
Proof.
  induction s as [|c s IH]; [done|].
  rewrite rstrip_cons. case_bool_decide as Hr.
  - destruct (isspace c) eqn:Hc; [done|]. simpl. by rewrite Hc.
  - rewrite rstrip_cons, IH. by rewrite bool_decide_eq_false_2.
Qed.

Lemma spaced_rstrip (b : bool) (s : str) : spaced b s = true → spaced b (rstrip s) = true.
Proof.
  revert b. induction s as [|c s IH]; intros b; [done|].
  rewrite rstrip_cons. case_bool_decide as Hr.
  - simpl. destruct (isspace c) eqn:Hc; [done|]. simpl. by rewrite Hc.
  - simpl. destruct (isspace c) eqn:Hc.
    + intros [Hcb Hs]%andb_prop. rewrite Hcb. simpl. by apply IH.
    + apply IH.
Qed.

Lemma spaced_clean (s : str) : spaced true (clean s) = true.
Proof.
  unfold clean, strip. eapply spaced_rstrip, spaced_lstrip, spaced_sub_ws.
Qed.

Lemma rstrip_clean (s : str) : rstrip (clean s) = clean s.
Proof. unfold clean, strip. apply rstrip_idem. Qed.

Lemma strip_clean (s : str) : strip (clean s) = clean s.
Proof.
  unfold strip. rewrite (lstrip_spaced _ (spaced_clean s)). apply rstrip_clean.
Qed.

Lemma clean_idempotent (s : str) : clean (clean s) = clean s.
Proof.
  pose proof (spaced_clean s) as Hs.
  unfold clean at 1.
  rewrite (replace_nbsp_spaced _ _ Hs).
  rewrite (sub_ws_spaced false _ (spaced_weaken false _ Hs)).
  apply strip_clean.
Qed.

Lemma spaced_only_space (b : bool) (s : str) (c : N) :
  spaced b s = true → c ∈ s → isspace c = true → c = SPACE.
Proof.
  revert b. induction s as [|d s IH]; intros b Hs Hin Hc; [by apply not_elem_of_nil in Hin|].
  apply elem_of_cons in Hin as [->|Hin].
  - simpl in Hs. rewrite Hc in Hs.
    apply andb_prop in Hs as [[Hs _]%andb_prop _]. by apply N.eqb_eq.
  - simpl in Hs. destruct (isspace d).
    + apply andb_prop in Hs as [_ Hs]. by eapply IH.
    + by eapply IH.
Qed.

Lemma spaced_adjacent (b : bool) (s : str) (i : nat) (c d : N) :
  spaced b s = true → s !! i = Some c → s !! S i = Some d →
  isspace c = true → isspace d = false.
Proof.
  revert b i. induction s as [|x s IH]; intros b i Hs Hc Hd Hw; [done|].
  destruct i as [|i].
  - simpl in Hc. injection Hc as ->. simpl in Hs. rewrite Hw in Hs.
    apply andb_prop in Hs as [_ Hs].
    destruct s as [|y s]; [done|]. simpl in Hd. injection Hd as ->.
    simpl in Hs. destruct (isspace d); [|done]. by rewrite andb_false_r in Hs.
  - simpl in Hs. destruct (isspace x).
    + apply andb_prop in Hs as [_ Hs]. by eapply (IH true i).
    + by eapply (IH false i).
Qed.

Lemma spaced_head (s : str) (c : N) :
  spaced true s = true → head s = Some c → isspace c = false.
Proof.
  destruct s as [|d s]; [done|]. simpl. intros Hs [= ->].
  destruct (isspace c); [|done]. by rewrite andb_false_r in Hs.
Qed.

Lemma rstrip_last (s : str) (c : N) :
  rstrip s = s → last s = Some c → isspace c = false.
Proof.
  induction s as [|d s IH]; [done|].
  rewrite rstrip_cons. case_bool_decide as Hr.
  - destruct (isspace d) eqn:Hd; [done|]. intros [= <-]. simpl. by intros [= <-].
  - intros [= Hs]. destruct s as [|e s]; [done|].
    rewrite last_cons_cons. by apply IH.
Qed.

(** *** The normalizer keeps the words and joins them with single spaces *)

Lemma words_aux_replace_nbsp (cur s : str) :
  words_aux cur (replace_nbsp s) = words_aux cur s.
Proof.
  revert cur. induction s as [|c s IH]; intros cur; [done|].
  cbn [replace_nbsp map words_aux]. fold (replace_nbsp s).
  destruct (N.eqb_spec c NBSP) as [->|_].
  - rewrite isspace_SPACE, isspace_NBSP. by rewrite !IH.
  - destruct (isspace c); by rewrite ?IH.
Qed.

Lemma words_aux_sub_ws (b : bool) (cur s : str) :
  (b = true → cur = []) → words_aux cur (sub_ws b s) = words_aux cur s.
Proof.
  revert b cur. induction s as [|c s IH]; intros b cur Hb; [done|].
  simpl. destruct (isspace c) eqn:Hc.
  - destruct b.
    + rewrite (Hb eq_refl). by apply IH.
    + cbn [words_aux]. rewrite isspace_SPACE. by rewrite (IH true []).
  - simpl. rewrite Hc. by apply IH.
Qed.

Lemma words_lstrip (s : str) : words (lstrip s) = words s.
Proof.
  unfold words. induction s as [|c s IH]; [done|].
  simpl. destruct (isspace c) eqn:Hc; [done|]. simpl. by rewrite Hc.
Qed.

Lemma words_aux_blank (cur s : str) :
  rstrip s = [] → words_aux cur s = words_aux cur [].
Proof.
  revert cur. induction s as [|c s IH]; intros cur; [done|].
  rewrite rstrip_cons. case_bool_decide as Hr; [|done].
  destruct (isspace c) eqn:Hc; [|done]. intros _.
  simpl. rewrite Hc. rewrite (IH [] Hr). by destruct cur.
Qed.

Lemma words_aux_rstrip (cur s : str) : words_aux cur (rstrip s) = words_aux cur s.
Proof.
  revert cur. induction s as [|c s IH]; intros cur; [done|].
  rewrite rstrip_cons. case_bool_decide as Hr.
  - destruct (isspace c) eqn:Hc.
    + symmetry. apply words_aux_blank. rewrite rstrip_cons.
      by rewrite bool_decide_eq_true_2, Hc.
    + simpl. rewrite Hc. by rewrite (words_aux_blank _ s Hr).
  - simpl. destruct (isspace c); by rewrite ?IH.
Qed.

Lemma words_clean (s : str) : words (clean s) = words s.
Proof.
  unfold clean, strip, words.
  rewrite words_aux_rstrip. fold (words (lstrip (sub_ws false (replace_nbsp s)))).
  rewrite words_lstrip. unfold words.
  rewrite words_aux_sub_ws by done. apply words_aux_replace_nbsp.
Qed.

Lemma words_aux_nil (cur s : str) : words_aux cur s = [] → cur = [] ∧ rstrip s = [].
Proof.
  revert cur. induction s as [|c s IH]; intros cur.
  - simpl. by destruct cur.
  - simpl. destruct (isspace c) eqn:Hc.
    + destruct cur; [|done]. intros Hw. split; [done|].
      by destruct (IH _ Hw) as [_ ->].
    + intros Hw. by destruct (IH _ Hw).
Qed.

Lemma unwords_cons (w : str) (ws : list str) :
  ws ≠ [] → unwords (w :: ws) = w ++ SPACE :: unwords ws.
Proof. by destruct ws. Qed.

Lemma unwords_words_aux (cur s : str) :
  spaced (bool_decide (cur = [])) s = true → rstrip s = s →
  unwords (words_aux cur s) = reverse cur ++ s.
Proof.
  revert cur. induction s as [|c s IH]; intros cur Hs Hr.
  - simpl. destruct cur; [done|]. simpl. by rewrite app_nil_r.
  - assert (rstrip s = s ∧ (isspace c = true → rstrip s ≠ [])) as [Hr' Hne].
    { rewrite rstrip_cons in Hr. case_bool_decide as Hn.
      - destruct (isspace c); [done|]. injection Hr as <-. by split.
      - injection Hr as Hr. split; [done|]. by intros _. }
    simpl in Hs |- *. destruct (isspace c) eqn:Hc.
    + apply andb_prop in Hs as [[Hsp Hcur%negb_true_iff]%andb_prop Hs].
      apply N.eqb_eq in Hsp. subst c.
      apply bool_decide_eq_false in Hcur.
      destruct cur as [|x cur]; [done|].
      rewrite unwords_cons.
      * by rewrite (IH [] Hs Hr').
      * intros Hw%words_aux_nil. destruct Hw as [_ Hw]. by apply Hne.
    + rewrite (IH (c :: cur) Hs Hr'). rewrite reverse_cons. by rewrite <-app_assoc.
Qed.

Lemma clean_unwords_words (s : str) : clean s = unwords (words s).
Proof.
  rewrite <-(words_clean s). unfold words.
  rewrite unwords_words_aux; [done| |apply rstrip_clean].
  apply spaced_clean.
Qed.

(** C8.  The normalizer [clean] is idempotent; it returns the words of its
    argument (the maximal runs of non-whitespace) joined by single ordinary
    spaces, so that non-breaking spaces are gone, every remaining whitespace
    is one ordinary space standing alone, and nothing leads or trails; and it
    maps " a<nbsp><nbsp> b <newline> c " to "a b c". *)
Theorem clean_normalizes (s : str) :
  clean (clean s) = clean s
  ∧ clean s = unwords (words s)
  ∧ (NBSP ∉ clean s)
  ∧ (∀ c, c ∈ clean s → isspace c = true → c = SPACE)
  ∧ (∀ i c d, clean s !! i = Some c → clean s !! S i = Some d →
       isspace c = true → isspace d = false)
  ∧ (∀ c, head (clean s) = Some c → isspace c = false)
  ∧ (∀ c, last (clean s) = Some c → isspace c = false)
  ∧ clean ([SPACE] ++ lit "a" ++ [NBSP; NBSP; SPACE] ++ lit "b"
           ++ [SPACE; 0x0a; SPACE] ++ lit "c" ++ [SPACE]) = lit "a b c".
Proof.
  pose proof (spaced_clean s) as Hs.
  split_and!.
  - apply clean_idempotent.
  - apply clean_unwords_words.
  - intros Hin. by pose proof (spaced_only_space _ _ _ Hs Hin isspace_NBSP).
  - intros c. by apply spaced_only_space with (b := true).
  - intros i c d. by apply spaced_adjacent with (b := true).
  - intros c. by apply spaced_head.
  - intros c. apply rstrip_last, rstrip_clean.
  - reflexivity.
Qed.

(** ** Substrings *)

Lemma is_prefix_spec (p s : str) : is_prefix p s = true ↔ ∃ post, s = p ++ post.
Proof.
  revert s. induction p as [|a p IH]; intros s; simpl.
  - split; [intros _; by exists s|done].
  - destruct s as [|b s].
    + split; [done|]. by intros [post Hp].
    + rewrite andb_true_iff, N.eqb_eq, IH. split.
      * intros [-> [post ->]]. by exists post.
      * intros [post [= -> ->]]. split; [done|]. by exists post.
Qed.

Lemma contains_spec (needle hay : str) : contains needle hay = true ↔ substring needle hay.
Proof.
  unfold substring. induction hay as [|c hay IH]; simpl.
  - rewrite orb_false_r, is_prefix_spec. split.
    + intros [post Hp]. by exists [], post.
    + intros (pre & post & Hp). symmetry in Hp.
      apply app_eq_nil in Hp as [-> Hp]. simpl in Hp. exists post. by symmetry.
  - rewrite orb_true_iff, is_prefix_spec, IH. split.
    + intros [[post Hp]|(pre & post & ->)].
      * by exists [], post.
      * by exists (c :: pre), post.
    + intros ([|x pre] & post & Hp).
      * left. by exists post.
      * injection Hp as -> ->. right. by exists pre, post.
Qed.

Lemma substring_trans (a b c : str) : substring a b → substring b c → substring a c.
Proof.
  intros (p1 & q1 & ->) (p2 & q2 & ->).
  exists (p2 ++ p1), (q1 ++ q2). by rewrite <-!app_assoc.
Qed.

Lemma substring_prefix (a b : str) : substring a (a ++ b).
Proof. by exists [], b. Qed.

Lemma existsb_contains (req : str) (headers : list str) :
  existsb (contains req) headers = true ↔ ∃ h, h ∈ headers ∧ substring req h.
Proof.
  rewrite existsb_exists. setoid_rewrite contains_spec.
  by setoid_rewrite list_elem_of_In.
Qed.

Section Locator.
Context `{StrCase}.

Lemma covers_spec (required_headers headers : list str) :
  forallb (λ req, existsb (contains req) headers) (map lower required_headers) = true
  ↔ ∀ req, req ∈ required_headers → ∃ h, h ∈ headers ∧ substring (lower req) h.
Proof.
  rewrite forallb_forall. split.
  - intros Hall req Hreq. apply existsb_contains, Hall, list_elem_of_In.
    by apply list_elem_of_fmap_2.
  - intros Hall x Hx%list_elem_of_In.
    apply list_elem_of_fmap in Hx as (req & -> & Hreq).
    by apply existsb_contains, Hall.
Qed.

(** What [find_best_table] decides for one table. *)
Lemma find_best_table_cons (table : Table) (soup : Soup) (required_headers : list str) :
  (qualifies required_headers table
   ∧ ∃ header_row, head table = Some header_row
       ∧ find_best_table (table :: soup) required_headers
         = Some (header_labels header_row, table))
  ∨ (¬ qualifies required_headers table
     ∧ find_best_table (table :: soup) required_headers
       = find_best_table soup required_headers).
Proof.
  destruct table as [|header_row rest].
  { right. split; [|done]. by intros (? & ? & ? & _). }
  destruct (ths header_row) as [|th ths'] eqn:Hths.
  { right. split; [|by simpl; rewrite Hths].
    intros (hr & ? & [= <- <-] & Hne & _). done. }
  simpl. rewrite Hths.
  destruct (forallb _ _) eqn:Hcov.
  - left. split; [|by exists header_row].
    exists header_row, rest. split_and!; [done|by rewrite Hths|].
    by apply covers_spec.
  - right. split; [|done].
    intros (hr & ? & [= <- <-] & _ & Hall).
    apply covers_spec in Hall. by rewrite Hall in Hcov.
Qed.

Lemma find_best_table_spec (soup : Soup) (required_headers : list str) :
  match find_best_table soup required_headers with
  | Some (headers, table) =>
      ∃ i header_row,
        soup !! i = Some table
        ∧ head table = Some header_row
        ∧ headers = header_labels header_row
        ∧ qualifies required_headers table
        ∧ ∀ j t, (j < i)%nat → soup !! j = Some t → ¬ qualifies required_headers t
  | None => ∀ t, t ∈ soup → ¬ qualifies required_headers t
  end.
Proof.
  induction soup as [|table soup IH].
  { simpl. intros t Ht. by apply not_elem_of_nil in Ht. }
  destruct (find_best_table_cons table soup required_headers)
    as [(Hq & hr & Hhd & ->)|(Hnq & ->)].
  - exists 0%nat, hr. split_and!; try done. intros j t Hj. lia.
  - destruct (find_best_table soup required_headers) as [[headers t]|].
    + destruct IH as (i & hr & Hi & Hhd & Hhs & Hq & Hfirst).
      exists (S i), hr. split_and!; try done.
      intros [|j] t' Hj; simpl.
      * by intros [= <-].
      * apply Hfirst. lia.
    + intros t [->|Ht]%elem_of_cons; [done|by apply IH].
Qed.

End Locator.

(** ** Column resolution after a successful locate *)

Lemma idx_from_found (i : Z) (key : str) (headers : list str) :
  (∃ h, h ∈ headers ∧ substring key h) → (i ≤ idx_from i key headers)%Z.
Proof.
  revert i. induction headers as [|h0 headers IH]; intros i (h & Hin & Hsub).
  { by apply not_elem_of_nil in Hin. }
  simpl. destruct (contains key h0) eqn:Hc; [lia|].
  apply elem_of_cons in Hin as [->|Hin].
  - apply contains_spec in Hsub. congruence.
  - assert (i + 1 ≤ idx_from (i + 1) key headers)%Z by (apply IH; by exists h). lia.
Qed.

Ltac ascii_text := repeat (constructor; [reflexivity|]); constructor.

Section Resolver.
Context `{StrCase}.

Lemma idx_contains_found (headers : list str) (key : str) :
  (∃ h, h ∈ headers ∧ substring (lower key) h) → (0 ≤ idx_contains headers key)%Z.
Proof. apply idx_from_found. Qed.

Lemma located (soup : Soup) (required_headers headers : list str) (table : Table) :
  find_best_table soup required_headers = Some (headers, table) →
  table ∈ soup
  ∧ ∀ req, req ∈ required_headers → ∃ h, h ∈ headers ∧ substring (lower req) h.
Proof.
  intros Hf. pose proof (find_best_table_spec soup required_headers) as Hs.
  rewrite Hf in Hs. destruct Hs as (i & hr & Hi & Hhd & -> & Hq & _).
  split; [by eapply list_elem_of_lookup_2|].
  destruct Hq as (hr' & rest & -> & _ & Hall).
  simpl in Hhd. by injection Hhd as ->.
Qed.

(** A field fragment that begins a required header resolves in every table
    the locator accepts for that header. *)
Lemma resolves (soup : Soup) (required_headers headers : list str) (table : Table)
    (req key : string) (rest : str) :
  find_best_table soup required_headers = Some (headers, table) →
  lit req ∈ required_headers →
  Forall is_ascii (lit req) → Forall is_ascii (lit key) →
  map ascii_lower (lit req) = map ascii_lower (lit key) ++ rest →
  (0 ≤ idx_contains headers (lit key))%Z.
Proof.
  intros Hf Hreq Hareq Hakey Hpre.
  destruct (located _ _ _ _ Hf) as [_ Hall].
  destruct (Hall _ Hreq) as (h & Hh & Hsub).
  apply idx_contains_found. exists h. split; [done|].
  rewrite (lower_ascii _ Hareq), Hpre in Hsub.
  rewrite (lower_ascii _ Hakey).
  eapply substring_trans; [apply substring_prefix|done].
Qed.

Lemma classic_resolves (soup : Soup) (headers : list str) (table : Table) :
  find_best_table soup CLASSIC_HEADERS = Some (headers, table) →
  (0 ≤ idx_contains headers (lit "endpoint")
   ∧ 0 ≤ idx_contains headers (lit "operation")
   ∧ 0 ≤ idx_contains headers (lit "required"))%Z.
Proof.
  intros Hf. split_and!.
  - eapply (resolves _ _ _ _ "Endpoint" "endpoint" []); [done| |ascii_text..|done].
    unfold CLASSIC_HEADERS. set_solver.
  - eapply (resolves _ _ _ _ "Operation" "operation" []); [done| |ascii_text..|done].
    unfold CLASSIC_HEADERS. set_solver.
  - eapply (resolves _ _ _ _ "Required Privilege" "required" (lit " privilege"));
      [done| |ascii_text..|done].
    unfold CLASSIC_HEADERS. set_solver.
Qed.

Lemma prod_resolves (soup : Soup) (headers : list str) (table : Table) :
  find_best_table soup PROD_HEADERS = Some (headers, table) →
  (0 ≤ idx_contains headers (lit "endpoint")
   ∧ 0 ≤ idx_contains headers (lit "operation")
   ∧ 0 ≤ idx_contains headers (lit "privilege")
   ∧ 0 ≤ idx_contains headers (lit "deprecation"))%Z.
Proof.
  intros Hf. split_and!.
  - eapply (resolves _ _ _ _ "Endpoint" "endpoint" []); [done| |ascii_text..|done].
    unfold PROD_HEADERS. set_solver.
  - eapply (resolves _ _ _ _ "Operation" "operation" []); [done| |ascii_text..|done].
    unfold PROD_HEADERS. set_solver.
  - eapply (resolves _ _ _ _ "Privilege Requirements" "privilege" (lit " requirements"));
      [done| |ascii_text..|done].
    unfold PROD_HEADERS. set_solver.
  - eapply (resolves _ _ _ _ "Deprecation Date" "deprecation" (lit " date"));
      [done| |ascii_text..|done].
    unfold PROD_HEADERS. set_solver.
Qed.

End Resolver.

(** ** Row extraction *)

Lemma getitem_in_range {A} (l : list A) (i : Z) :
  (0 ≤ i < Z.of_nat (length l))%Z →
  ∃ a, l !! Z.to_nat i = Some a ∧ getitem l i = Ok a.
Proof.
  intros Hi. unfold getitem.
  destruct (Z.ltb_spec i 0) as [?|_]; [lia|].
  destruct (Z.leb_spec 0 i) as [_|?]; [|lia].
  destruct (Z.ltb_spec i (Z.of_nat (length l))) as [_|?]; [|lia].
  simpl. destruct (lookup_lt_is_Some_2 l (Z.to_nat i)) as [a Ha]; [lia|].
  exists a. by rewrite Ha.
Qed.

Section Extraction.
Context `{StrCase}.

Lemma upper_empty (s : str) : upper s = [] ↔ s = [].
Proof.
  split; [apply upper_nil|]. intros ->. by rewrite (upper_ascii []).
Qed.

(** The classic loop body never raises once the indices are resolved: a row
    without data cells or with too few cells is passed over, any other row is
    read at the three indices. *)
Lemma classic_row_spec (i_endpoint i_operation i_priv : Z) (tr : Tr) :
  (0 ≤ i_endpoint)%Z → (0 ≤ i_operation)%Z → (0 ≤ i_priv)%Z →
  let cells := map clean (tds tr) in
  let top := Z.max (Z.max i_endpoint i_operation) i_priv in
  ((tds tr = [] ∨ (Z.of_nat (length cells) ≤ top)%Z)
   ∧ classic_row i_endpoint i_operation i_priv tr = Ok None)
  ∨ ∃ e o p,
      tds tr ≠ [] ∧ (top < Z.of_nat (length cells))%Z
      ∧ cells !! Z.to_nat i_endpoint = Some e
      ∧ cells !! Z.to_nat i_operation = Some o
      ∧ cells !! Z.to_nat i_priv = Some p
      ∧ classic_row i_endpoint i_operation i_priv tr
        = Ok (if bool_decide (e = []) || bool_decide (upper o = [])
              then None else Some (ClassicRow.mk e (upper o) p)).
Proof.
  intros He Ho Hp cells top. unfold classic_row.
  destruct (tds tr) as [|td tds'] eqn:Htds; [left; by split; [left|]|].
  fold cells top.
  destruct (Z.geb_spec top (Z.of_nat (length cells))) as [Hge|Hlt].
  { left. split; [right; lia|done]. }
  right.
  destruct (getitem_in_range cells i_endpoint) as (e & Hle & ->); [lia|].
  destruct (getitem_in_range cells i_operation) as (o & Hlo & ->); [lia|].
  destruct (getitem_in_range cells i_priv) as (p & Hlp & ->); [lia|].
  exists e, o, p. split_and!; try done. simpl.
  by destruct (bool_decide (e = []) || bool_decide (upper o = [])).
Qed.

Lemma prod_row_spec (i_endpoint i_operation i_priv i_depr : Z) (tr : Tr) :
  (0 ≤ i_endpoint)%Z → (0 ≤ i_operation)%Z → (0 ≤ i_priv)%Z → (0 ≤ i_depr)%Z →
  let cells := map clean (tds tr) in
  let top := Z.max (Z.max (Z.max i_endpoint i_operation) i_priv) i_depr in
  ((tds tr = [] ∨ (Z.of_nat (length cells) ≤ top)%Z)
   ∧ prod_row i_endpoint i_operation i_priv i_depr tr = Ok None)
  ∨ ∃ e o p d,
      tds tr ≠ [] ∧ (top < Z.of_nat (length cells))%Z
      ∧ cells !! Z.to_nat i_endpoint = Some e
      ∧ cells !! Z.to_nat i_operation = Some o
      ∧ cells !! Z.to_nat i_priv = Some p
      ∧ cells !! Z.to_nat i_depr = Some d
      ∧ prod_row i_endpoint i_operation i_priv i_depr tr
        = Ok (if bool_decide (e = []) || bool_decide (upper o = [])
              then None
              else Some (ProdRow.mk e (upper o) p (if bool_decide (d = []) then NA else d))).
Proof.
  intros He Ho Hp Hd cells top. unfold prod_row.
  destruct (tds tr) as [|td tds'] eqn:Htds; [left; by split; [left|]|].
  fold cells top.
  destruct (Z.geb_spec top (Z.of_nat (length cells))) as [Hge|Hlt].
  { left. split; [right; lia|done]. }
  right.
  destruct (getitem_in_range cells i_endpoint) as (e & Hle & ->); [lia|].
  destruct (getitem_in_range cells i_operation) as (o & Hlo & ->); [lia|].
  destruct (getitem_in_range cells i_priv) as (p & Hlp & ->); [lia|].
  destruct (getitem_in_range cells i_depr) as (d & Hld & ->); [lia|].
  exists e, o, p, d. split_and!; try done. simpl.
  by destruct (bool_decide (e = []) || bool_decide (upper o = [])).
Qed.

Lemma classic_rows_omap (i_endpoint i_operation i_priv : Z) (trs : list Tr) :
  (0 ≤ i_endpoint)%Z → (0 ≤ i_operation)%Z → (0 ≤ i_priv)%Z →
  classic_rows i_endpoint i_operation i_priv trs
  = Ok (omap (λ tr, emitted (classic_row i_endpoint i_operation i_priv tr)) trs).
Proof.
  intros He Ho Hp. induction trs as [|tr trs IH]; [done|].
  simpl. rewrite IH.
  destruct (classic_row_spec i_endpoint i_operation i_priv tr He Ho Hp)
    as [[_ ->]|(e & o & p & _ & _ & _ & _ & _ & ->)]; [done|].
  simpl. by destruct (bool_decide (e = []) || bool_decide (upper o = [])).
Qed.

Lemma prod_rows_omap (i_endpoint i_operation i_priv i_depr : Z) (trs : list Tr) :
  (0 ≤ i_endpoint)%Z → (0 ≤ i_operation)%Z → (0 ≤ i_priv)%Z → (0 ≤ i_depr)%Z →
  prod_rows i_endpoint i_operation i_priv i_depr trs
  = Ok (omap (λ tr, emitted (prod_row i_endpoint i_operation i_priv i_depr tr)) trs).
Proof.
  intros He Ho Hp Hd. induction trs as [|tr trs IH]; [done|].
  simpl. rewrite IH.
  destruct (prod_row_spec i_endpoint i_operation i_priv i_depr tr He Ho Hp Hd)
    as [[_ ->]|(e & o & p & d & _ & _ & _ & _ & _ & _ & ->)]; [done|].
  simpl. by destruct (bool_decide (e = []) || bool_decide (upper o = [])).
Qed.

End Extraction.

(** ** First occurrences and the deduplication loop *)

Section Firsts.
Context {A : Type} `{EqDecision A}.
Implicit Types earlier l : list A.

Lemma firsts_proper earlier earlier' l :
  (∀ x, x ∈ earlier ↔ x ∈ earlier') → firsts earlier l = firsts earlier' l.
Proof.
  revert earlier earlier'. induction l as [|x l IH]; intros e e' Heq; [done|].
  simpl. rewrite (decide_ext (x ∈ e) (x ∈ e')) by apply Heq.
  case_decide; [by apply IH|]. f_equal. apply IH.
  intros y. rewrite !elem_of_app. by rewrite Heq.
Qed.

Lemma elem_of_firsts earlier l x : x ∈ firsts earlier l ↔ x ∈ l ∧ x ∉ earlier.
Proof.
  revert earlier. induction l as [|y l IH]; intros e; simpl.
  { split; [by intros ?%not_elem_of_nil|by intros [?%not_elem_of_nil _]]. }
  case_decide as Hy.
  - rewrite IH, elem_of_cons. split; [tauto|].
    intros [[->|?] ?]; tauto.
  - rewrite !elem_of_cons, IH, elem_of_app, list_elem_of_singleton.
    destruct (decide (x = y)) as [->|?]; [tauto|]. tauto.
Qed.

Lemma NoDup_firsts earlier l : NoDup (firsts earlier l).
Proof.
  revert earlier. induction l as [|y l IH]; intros e; simpl; [constructor|].
  case_decide; [apply IH|]. constructor; [|apply IH].
  rewrite elem_of_firsts, elem_of_app, list_elem_of_singleton. tauto.
Qed.

Lemma sublist_firsts earlier l : firsts earlier l `sublist_of` l.
Proof.
  revert earlier. induction l as [|y l IH]; intros e; simpl; [done|].
  case_decide; [by apply sublist_cons|by apply sublist_skip].
Qed.

Lemma firsts_app earlier l1 l2 :
  firsts earlier (l1 ++ l2) = firsts earlier l1 ++ firsts (earlier ++ l1) l2.
Proof.
  revert earlier. induction l1 as [|x l1 IH]; intros e; simpl.
  { by rewrite app_nil_r. }
  case_decide as Hx.
  - rewrite IH. f_equal. apply firsts_proper. intros y.
    rewrite !elem_of_app, elem_of_cons. split; [tauto|]. intros [?|[->|?]]; tauto.
  - simpl. rewrite IH. do 2 f_equal. by rewrite <-app_assoc.
Qed.

Lemma first_occurrences_keeps l1 x l2 :
  x ∉ l1 →
  first_occurrences (l1 ++ x :: l2)
  = first_occurrences l1 ++ x :: firsts (l1 ++ [x]) l2.
Proof.
  intros Hx. unfold first_occurrences. rewrite firsts_app. simpl.
  by rewrite decide_False.
Qed.

Lemma first_occurrences_drops l1 x l2 :
  x ∈ l1 →
  first_occurrences (l1 ++ x :: l2) = first_occurrences (l1 ++ l2).
Proof.
  intros Hx. unfold first_occurrences. rewrite !firsts_app. simpl.
  by rewrite decide_True.
Qed.

Lemma dedup_firsts {K} `{Countable K} (key : A → K) `{!Inj (=) (=) key}
    (seen : gset K) earlier out rows :
  (∀ r, key r ∈ seen ↔ r ∈ earlier) →
  dedup key seen out rows = out ++ firsts earlier rows.
Proof.
  revert seen earlier out. induction rows as [|r rows IH]; intros seen e out Hseen; simpl.
  { by rewrite app_nil_r. }
  rewrite (decide_ext (key r ∈ seen) (r ∈ e)) by apply Hseen.
  case_decide as Hr; [by apply IH|].
  rewrite (IH _ (e ++ [r])); [by rewrite <-app_assoc|].
  intros r'. rewrite elem_of_union, elem_of_singleton, elem_of_app, list_elem_of_singleton.
  rewrite Hseen. split; [|intros [?|Hr']; [tauto|subst r'; tauto]].
  intros [Hk%(inj key)|?]; [by right|by left].
Qed.

Lemma dedup_first_occurrences {K} `{Countable K} (key : A → K) `{!Inj (=) (=) key} rows :
  dedup key ∅ [] rows = first_occurrences rows.
Proof.
  rewrite (dedup_firsts key ∅ [] [] rows); [done|].
  intros r. split; [by intros ?%not_elem_of_empty|by intros ?%not_elem_of_nil].
Qed.

End Firsts.

#[global] Instance classic_key_inj : Inj (=) (=) classic_key.
Proof. intros [] [] [= -> -> ->]. done. Qed.

#[global] Instance prod_key_inj : Inj (=) (=) prod_key.
Proof. intros [] [] [= -> -> -> ->]. done. Qed.

(** ** The parsers *)

Section Parsers.
Context `{StrCase}.

Lemma find_best_table_none (soup : Soup) (required_headers : list str) :
  find_best_table soup required_headers = None
  ↔ ∀ t, t ∈ soup → ¬ qualifies required_headers t.
Proof.
  pose proof (find_best_table_spec soup required_headers) as Hs.
  destruct (find_best_table soup required_headers) as [[headers table]|]; [|done].
  split; [done|]. intros Hall.
  destruct Hs as (i & hr & Hi & _ & _ & Hq & _).
  destruct (Hall table); [by eapply list_elem_of_lookup_2|done].
Qed.

Lemma parse_classic_located (soup : Soup) (headers : list str) (table : Table) :
  find_best_table soup CLASSIC_HEADERS = Some (headers, table) →
  let i_endpoint := idx_contains headers (lit "endpoint") in
  let i_operation := idx_contains headers (lit "operation") in
  let i_priv := idx_contains headers (lit "required") in
  let rows := omap (λ tr, emitted (classic_row i_endpoint i_operation i_priv tr)) table in
  classic_rows i_endpoint i_operation i_priv table = Ok rows
  ∧ parse_classic soup = Ok (dedup classic_key ∅ [] rows).
Proof.
  intros Hf ie io ip rows.
  destruct (classic_resolves _ _ _ Hf) as (He & Ho & Hp). fold ie io ip in He, Ho, Hp.
  pose proof (classic_rows_omap ie io ip table He Ho Hp) as Hrows. fold rows in Hrows.
  split; [done|]. unfold parse_classic. rewrite Hf. fold ie io ip.
  destruct (Z.ltb_spec (Z.min (Z.min ie io) ip) 0) as [?|_]; [lia|].
  by rewrite Hrows.
Qed.

Lemma parse_prod_located (soup : Soup) (headers : list str) (table : Table) :
  find_best_table soup PROD_HEADERS = Some (headers, table) →
  let i_endpoint := idx_contains headers (lit "endpoint") in
  let i_operation := idx_contains headers (lit "operation") in
  let i_priv := idx_contains headers (lit "privilege") in
  let i_depr := idx_contains headers (lit "deprecation") in
  let rows := omap (λ tr, emitted (prod_row i_endpoint i_operation i_priv i_depr tr)) table in
  prod_rows i_endpoint i_operation i_priv i_depr table = Ok rows
  ∧ parse_prod soup = Ok (dedup prod_key ∅ [] rows).
Proof.
  intros Hf ie io ip id rows.
  destruct (prod_resolves _ _ _ Hf) as (He & Ho & Hp & Hd). fold ie io ip id in He, Ho, Hp, Hd.
  pose proof (prod_rows_omap ie io ip id table He Ho Hp Hd) as Hrows. fold rows in Hrows.
  split; [done|]. unfold parse_prod. rewrite Hf. fold ie io ip id.
  destruct (Z.ltb_spec (Z.min (Z.min (Z.min ie io) ip) id) 0) as [?|_]; [lia|].
  by rewrite Hrows.
Qed.

Lemma parse_classic_cases (soup : Soup) :
  (find_best_table soup CLASSIC_HEADERS = None
   ∧ parse_classic soup = Raise (TableNotFound Classic))
  ∨ ∃ headers table out,
      find_best_table soup CLASSIC_HEADERS = Some (headers, table)
      ∧ parse_classic soup = Ok out.
Proof.
  destruct (find_best_table soup CLASSIC_HEADERS) as [[headers table]|] eqn:Hf.
  - right. destruct (parse_classic_located _ _ _ Hf) as [_ Hp]. by eexists _, _, _.
  - left. unfold parse_classic. by rewrite Hf.
Qed.

Lemma parse_prod_cases (soup : Soup) :
  (find_best_table soup PROD_HEADERS = None
   ∧ parse_prod soup = Raise (TableNotFound Prod))
  ∨ ∃ headers table out,
      find_best_table soup PROD_HEADERS = Some (headers, table)
      ∧ parse_prod soup = Ok out.
Proof.
  destruct (find_best_table soup PROD_HEADERS) as [[headers table]|] eqn:Hf.
  - right. destruct (parse_prod_located _ _ _ Hf) as [_ Hp]. by eexists _, _, _.
  - left. unfold parse_prod. by rewrite Hf.
Qed.

(** C4.  The table locator returns the first table of the document, in
    document order, whose first row has header cells and whose lower-cased
    normalized header labels cover every lower-cased required fragment as a
    substring of some label, together with these labels; tables without rows
    or without header cells in the first row do not qualify; when no table
    qualifies it returns nothing, and the parsers then raise the table-not-found
    error. *)
Theorem locator_returns_first_qualifying_table (soup : Soup) (required_headers : list str) :
  match find_best_table soup required_headers with
  | Some (headers, table) =>
      ∃ i header_row,
        soup !! i = Some table
        ∧ head table = Some header_row
        ∧ headers = header_labels header_row
        ∧ qualifies required_headers table
        ∧ ∀ j t, (j < i)%nat → soup !! j = Some t → ¬ qualifies required_headers t
  | None => ∀ t, t ∈ soup → ¬ qualifies required_headers t
  end
  ∧ (find_best_table soup required_headers = None
     ↔ ∀ t, t ∈ soup → ¬ qualifies required_headers t)
  ∧ (∀ t, qualifies required_headers t ↔
       ∃ header_row, head t = Some header_row ∧ ths header_row ≠ []
         ∧ ∀ req, req ∈ required_headers →
             ∃ th, th ∈ ths header_row ∧ substring (lower req) (lower (clean th)))
  ∧ ((∀ t, t ∈ soup → ¬ qualifies CLASSIC_HEADERS t) →
       parse_classic soup = Raise (TableNotFound Classic))
  ∧ ((∀ t, t ∈ soup → ¬ qualifies PROD_HEADERS t) →
       parse_prod soup = Raise (TableNotFound Prod)).
Proof.
  split_and!.
  - apply find_best_table_spec.
  - apply find_best_table_none.
  - intros t. unfold qualifies, header_labels. split.
    + intros (hr & rest & -> & Hne & Hall). exists hr. split_and!; try done.
      intros req Hreq. destruct (Hall req Hreq) as (h & Hh & Hsub).
      apply list_elem_of_fmap in Hh as (th & -> & Hth). by exists th.
    + intros (hr & Hhd & Hne & Hall). destruct t as [|hr' rest]; [done|].
      injection Hhd as ->. exists hr, rest. split_and!; try done.
      intros req Hreq. destruct (Hall req Hreq) as (th & Hth & Hsub).
      exists (lower (clean th)). split; [|done].
      by apply (list_elem_of_fmap_2 (λ th, lower (clean th))).
  - intros Hall%find_best_table_none. unfold parse_classic. by rewrite Hall.
  - intros Hall%find_best_table_none. unfold parse_prod. by rewrite Hall.
Qed.

(** C9.  Whenever the locator succeeds with the required fragments of a
    parser, each field fragment of that parser resolves to a column, so that
    neither parser ever raises the unexpected-headers error. *)
Theorem resolution_succeeds_after_locate (soup : Soup) :
  (∀ headers table,
     find_best_table soup CLASSIC_HEADERS = Some (headers, table) →
     (0 ≤ idx_contains headers (lit "endpoint")
      ∧ 0 ≤ idx_contains headers (lit "operation")
      ∧ 0 ≤ idx_contains headers (lit "required"))%Z)
  ∧ (∀ headers table,
       find_best_table soup PROD_HEADERS = Some (headers, table) →
       (0 ≤ idx_contains headers (lit "endpoint")
        ∧ 0 ≤ idx_contains headers (lit "operation")
        ∧ 0 ≤ idx_contains headers (lit "privilege")
        ∧ 0 ≤ idx_contains headers (lit "deprecation"))%Z)
  ∧ (∀ a headers, parse_classic soup ≠ Raise (UnexpectedHeaders a headers))
  ∧ (∀ a headers, parse_prod soup ≠ Raise (UnexpectedHeaders a headers)).
Proof.
  split_and!.
  - intros headers table. apply classic_resolves.
  - intros headers table. apply prod_resolves.
  - intros a headers.
    destruct (parse_classic_cases soup) as [[_ ->]|(? & ? & ? & _ & ->)]; done.
  - intros a headers.
    destruct (parse_prod_cases soup) as [[_ ->]|(? & ? & ? & _ & ->)]; done.
Qed.

End Parsers.

Section LocatorExamples.
#[local] Existing Instance ascii_case.

Lemma locator_returns_first_qualifying_table_witness :
  find_best_table other_soup CLASSIC_HEADERS = None
  ∧ (∀ t, t ∈ other_soup → ¬ qualifies CLASSIC_HEADERS t)
  ∧ parse_classic other_soup = Raise (TableNotFound Classic)
  ∧ match find_best_table prod_soup PROD_HEADERS with
    | Some (headers, table) => prod_soup !! 1%nat = Some table
    | None => False
    end.
Proof.
  destruct (locator_returns_first_qualifying_table other_soup CLASSIC_HEADERS)
    as (_ & Hnone & _ & Hraise & _).
  pose proof (proj1 Hnone eq_refl) as Hall.
  split; [reflexivity|]. split; [exact Hall|]. split; [exact (Hraise Hall)|].
  reflexivity.
Defined.

Lemma resolution_succeeds_after_locate_witness :
  find_best_table short_soup CLASSIC_HEADERS
  = Some (header_labels classic_header, [classic_header; short_tr])
  ∧ (0 ≤ idx_contains (header_labels classic_header) (lit "endpoint")
     ∧ 0 ≤ idx_contains (header_labels classic_header) (lit "operation")
     ∧ 0 ≤ idx_contains (header_labels classic_header) (lit "required"))%Z.
Proof.
  split; [reflexivity|].
  destruct (resolution_succeeds_after_locate short_soup) as [Hclassic _].
  exact (Hclassic (header_labels classic_header) [classic_header; short_tr] eq_refl).
Defined.

End LocatorExamples.

(** ** Which rows are passed over *)

Section Rows.
Context `{StrCase}.

Lemma classic_row_skips (i_endpoint i_operation i_priv : Z) (tr : Tr) :
  (0 ≤ i_endpoint)%Z → (0 ≤ i_operation)%Z → (0 ≤ i_priv)%Z →
  let cells := map clean (tds tr) in
  let top := Z.max (Z.max i_endpoint i_operation) i_priv in
  let emit := emitted (classic_row i_endpoint i_operation i_priv tr) in
  classic_row i_endpoint i_operation i_priv tr = Ok emit
  ∧ (tds tr = [] → emit = None)
  ∧ (tds tr ≠ [] →
     (emit = None ↔
        (Z.of_nat (length cells) ≤ top)%Z
        ∨ cells !! Z.to_nat i_endpoint = Some []
        ∨ cells !! Z.to_nat i_operation = Some []))
  ∧ (∀ r, emit = Some r →
       ∃ o, cells !! Z.to_nat i_endpoint = Some (ClassicRow.endpoint r)
            ∧ cells !! Z.to_nat i_operation = Some o
            ∧ ClassicRow.operation r = upper o
            ∧ cells !! Z.to_nat i_priv = Some (ClassicRow.required_privileges r)).
Proof.
  intros He Ho Hp. cbv zeta.
  destruct (classic_row_spec i_endpoint i_operation i_priv tr He Ho Hp)
    as [[Hshort ->]|(e & o & p & Htds & Hlen & Hle & Hlo & Hlp & ->)];
    cbn [emitted].
  - split_and!; try done.
    intros Htds. split; [|done]. intros _. left. by destruct Hshort.
  - split_and!; [done|done| |].
    + intros _. rewrite Hle, Hlo.
      destruct (bool_decide_reflect (e = [])) as [->|Hne]; simpl.
      { split; [|done]. intros _. right. by left. }
      destruct (bool_decide_reflect (upper o = [])) as [Hu|Hnu]; simpl.
      * apply upper_empty in Hu as ->. split; [|done]. intros _. right. by right.
      * split; [done|]. intros [?|[[= ->]|[= ->]]]; [lia|done|].
        by rewrite (proj2 (upper_empty [])) in Hnu.
    + intros r. destruct (bool_decide (e = []) || bool_decide (upper o = [])); [done|].
      intros [= <-]. by exists o.
Qed.

Lemma prod_row_skips (i_endpoint i_operation i_priv i_depr : Z) (tr : Tr) :
  (0 ≤ i_endpoint)%Z → (0 ≤ i_operation)%Z → (0 ≤ i_priv)%Z → (0 ≤ i_depr)%Z →
  let cells := map clean (tds tr) in
  let top := Z.max (Z.max (Z.max i_endpoint i_operation) i_priv) i_depr in
  let emit := emitted (prod_row i_endpoint i_operation i_priv i_depr tr) in
  prod_row i_endpoint i_operation i_priv i_depr tr = Ok emit
  ∧ (tds tr = [] → emit = None)
  ∧ (tds tr ≠ [] →
     (emit = None ↔
        (Z.of_nat (length cells) ≤ top)%Z
        ∨ cells !! Z.to_nat i_endpoint = Some []
        ∨ cells !! Z.to_nat i_operation = Some []))
  ∧ (∀ r, emit = Some r →
       ∃ o d, cells !! Z.to_nat i_endpoint = Some (ProdRow.endpoint r)
              ∧ cells !! Z.to_nat i_operation = Some o
              ∧ ProdRow.operation r = upper o
              ∧ cells !! Z.to_nat i_priv = Some (ProdRow.privilege_requirements r)
              ∧ cells !! Z.to_nat i_depr = Some d
              ∧ ProdRow.deprecation_date r = if bool_decide (d = []) then NA else d).
Proof.
  intros He Ho Hp Hd. cbv zeta.
  destruct (prod_row_spec i_endpoint i_operation i_priv i_depr tr He Ho Hp Hd)
    as [[Hshort ->]|(e & o & p & d & Htds & Hlen & Hle & Hlo & Hlp & Hld & ->)];
    cbn [emitted].
  - split_and!; try done.
    intros Htds. split; [|done]. intros _. left. by destruct Hshort.
  - split_and!; [done|done| |].
    + intros _. rewrite Hle, Hlo.
      destruct (bool_decide_reflect (e = [])) as [->|Hne]; simpl.
      { split; [|done]. intros _. right. by left. }
      destruct (bool_decide_reflect (upper o = [])) as [Hu|Hnu]; simpl.
      * apply upper_empty in Hu as ->. split; [|done]. intros _. right. by right.
      * split; [done|]. intros [?|[[= ->]|[= ->]]]; [lia|done|].
        by rewrite (proj2 (upper_empty [])) in Hnu.
    + intros r. destruct (bool_decide (e = []) || bool_decide (upper o = [])); [done|].
      intros [= <-]. by exists o, d.
Qed.

(** C2, amended.  In a located table both extractors pass over a data row
    exactly when its number of cells does not exceed the highest resolved
    column index, or its endpoint or operation cell is empty after
    normalization; no row makes the extraction raise, every row is treated on
    its own, and every other data row is emitted with the normalized cells at
    the resolved indices, the operation in upper case. *)
Theorem rows_passed_over_or_emitted (soup : Soup) :
  (∀ headers table,
     find_best_table soup CLASSIC_HEADERS = Some (headers, table) →
     let i_endpoint := idx_contains headers (lit "endpoint") in
     let i_operation := idx_contains headers (lit "operation") in
     let i_priv := idx_contains headers (lit "required") in
     let top := Z.max (Z.max i_endpoint i_operation) i_priv in
     let emit := λ tr, emitted (classic_row i_endpoint i_operation i_priv tr) in
     classic_rows i_endpoint i_operation i_priv table = Ok (omap emit table)
     ∧ parse_classic soup = Ok (dedup classic_key ∅ [] (omap emit table))
     ∧ ∀ tr,
         let cells := map clean (tds tr) in
         classic_row i_endpoint i_operation i_priv tr = Ok (emit tr)
         ∧ (tds tr = [] → emit tr = None)
         ∧ (tds tr ≠ [] →
            (emit tr = None ↔
               (Z.of_nat (length cells) ≤ top)%Z
               ∨ cells !! Z.to_nat i_endpoint = Some []
               ∨ cells !! Z.to_nat i_operation = Some []))
         ∧ (∀ r, emit tr = Some r →
              ∃ o, cells !! Z.to_nat i_endpoint = Some (ClassicRow.endpoint r)
                   ∧ cells !! Z.to_nat i_operation = Some o
                   ∧ ClassicRow.operation r = upper o
                   ∧ cells !! Z.to_nat i_priv
                     = Some (ClassicRow.required_privileges r)))
  ∧ (∀ headers table,
       find_best_table soup PROD_HEADERS = Some (headers, table) →
       let i_endpoint := idx_contains headers (lit "endpoint") in
       let i_operation := idx_contains headers (lit "operation") in
       let i_priv := idx_contains headers (lit "privilege") in
       let i_depr := idx_contains headers (lit "deprecation") in
       let top := Z.max (Z.max (Z.max i_endpoint i_operation) i_priv) i_depr in
       let emit := λ tr, emitted (prod_row i_endpoint i_operation i_priv i_depr tr) in
       prod_rows i_endpoint i_operation i_priv i_depr table = Ok (omap emit table)
       ∧ parse_prod soup = Ok (dedup prod_key ∅ [] (omap emit table))
       ∧ ∀ tr,
           let cells := map clean (tds tr) in
           prod_row i_endpoint i_operation i_priv i_depr tr = Ok (emit tr)
           ∧ (tds tr = [] → emit tr = None)
           ∧ (tds tr ≠ [] →
              (emit tr = None ↔
                 (Z.of_nat (length cells) ≤ top)%Z
                 ∨ cells !! Z.to_nat i_endpoint = Some []
                 ∨ cells !! Z.to_nat i_operation = Some []))
           ∧ (∀ r, emit tr = Some r →
                ∃ o, cells !! Z.to_nat i_endpoint = Some (ProdRow.endpoint r)
                     ∧ cells !! Z.to_nat i_operation = Some o
                     ∧ ProdRow.operation r = upper o
                     ∧ cells !! Z.to_nat i_priv
                       = Some (ProdRow.privilege_requirements r))).
Proof.
  split.
  - intros headers table Hf ie io ip top emit.
    destruct (parse_classic_located _ _ _ Hf) as [Hrows Hparse].
    destruct (classic_resolves _ _ _ Hf) as (He & Ho & Hp).
    split_and!; [done..|]. intros tr.
    apply (classic_row_skips ie io ip tr He Ho Hp).
  - intros headers table Hf ie io ip id top emit.
    destruct (parse_prod_located _ _ _ Hf) as [Hrows Hparse].
    destruct (prod_resolves _ _ _ Hf) as (He & Ho & Hp & Hd).
    split_and!; [done..|]. intros tr cells.
    destruct (prod_row_skips ie io ip id tr He Ho Hp Hd) as (H1 & H2 & H3 & H4).
    split_and!; [done..|]. intros r Hr.
    destruct (H4 r Hr) as (o & d & ? & ? & ? & ? & _). by exists o.
Qed.

End Rows.

Section RowExamples.
#[local] Existing Instance ascii_case.

Lemma rows_passed_over_or_emitted_witness :
  find_best_table short_soup CLASSIC_HEADERS
  = Some (header_labels classic_header, [classic_header; short_tr])
  ∧ parse_classic short_soup
    = Ok (dedup classic_key ∅ []
            (omap (λ tr, emitted (classic_row 0 1 2 tr)) [classic_header; short_tr])).
Proof.
  split; [reflexivity|].
  destruct (rows_passed_over_or_emitted short_soup) as [Hclassic _].
  destruct (Hclassic (header_labels classic_header) [classic_header; short_tr] eq_refl)
    as (_ & Hparse & _).
  exact Hparse.
Defined.

(** C2 as stated fails: with the highest resolved index 2, a data row of two
    cells does not have fewer cells than 2 and its endpoint and operation
    cells are not empty, and yet the row is passed over. *)
Lemma short_row_is_passed_over :
  find_best_table short_soup CLASSIC_HEADERS
  = Some (header_labels classic_header, [classic_header; short_tr])
  ∧ idx_contains (header_labels classic_header) (lit "endpoint") = 0%Z
  ∧ idx_contains (header_labels classic_header) (lit "operation") = 1%Z
  ∧ idx_contains (header_labels classic_header) (lit "required") = 2%Z
  ∧ tds short_tr ≠ []
  ∧ classic_row 0 1 2 short_tr = Ok None
  ∧ parse_classic short_soup = Ok []
  ∧ ¬ fewer_cells_or_empty 2 0 1 short_tr.
Proof.
  split_and!; try reflexivity; [done|].
  unfold fewer_cells_or_empty. simpl. intros [?|[?|?]]; [lia|done..].
Qed.

End RowExamples.

(** ** Deduplication *)

Lemma dedup_deduplicated {R K} `{EqDecision R} `{Countable K} (key : R → K)
    `{!Inj (=) (=) key} (rows : list R) :
  deduplicated key rows (dedup key ∅ [] rows).
Proof.
  rewrite dedup_first_occurrences by done. unfold deduplicated, first_occurrences.
  split_and!.
  - done.
  - apply (NoDup_fmap_2 key), NoDup_firsts.
  - intros r. rewrite elem_of_firsts. split; [by intros [? _]|].
    intros Hr. split; [done|]. apply not_elem_of_nil.
  - apply sublist_firsts.
  - intros l1 r l2 -> Hr. by apply first_occurrences_keeps.
  - intros l1 r l2 -> Hr. by apply first_occurrences_drops.
Qed.

Section Deduplication.
Context `{StrCase}.

(** C3, amended.  The rows a parser returns are the extracted rows
    deduplicated by the full row tuple, which for classic rows is (endpoint,
    operation, normalized text of the privileges cell) and for pro rows has
    the deprecation text as well: an exact repeat is dropped, the first
    occurrence stays where it is, and the first occurrences keep their
    relative order.  Rows whose privileges cells differ as text are different
    rows, also when they split into the same list of privileges. *)
Theorem rows_deduplicated_by_row_tuple (soup : Soup) :
  (∀ out, parse_classic soup = Ok out →
     ∃ headers table rows,
       find_best_table soup CLASSIC_HEADERS = Some (headers, table)
       ∧ classic_rows (idx_contains headers (lit "endpoint"))
           (idx_contains headers (lit "operation"))
           (idx_contains headers (lit "required")) table = Ok rows
       ∧ deduplicated classic_key rows out)
  ∧ (∀ out, parse_prod soup = Ok out →
       ∃ headers table rows,
         find_best_table soup PROD_HEADERS = Some (headers, table)
         ∧ prod_rows (idx_contains headers (lit "endpoint"))
             (idx_contains headers (lit "operation"))
             (idx_contains headers (lit "privilege"))
             (idx_contains headers (lit "deprecation")) table = Ok rows
         ∧ deduplicated prod_key rows out)
  ∧ (∀ r r' : ClassicRow.t, classic_key r = classic_key r' ↔ r = r')
  ∧ (∀ r r' : ProdRow.t, prod_key r = prod_key r' ↔ r = r').
Proof.
  split_and!.
  - intros out Hout.
    destruct (parse_classic_cases soup) as [[_ Hraise]|(headers & table & out' & Hf & _)];
      [congruence|].
    destruct (parse_classic_located _ _ _ Hf) as [Hrows Hparse].
    rewrite Hparse in Hout. injection Hout as <-.
    eexists headers, table, _. split_and!; [done..|]. apply dedup_deduplicated, _.
  - intros out Hout.
    destruct (parse_prod_cases soup) as [[_ Hraise]|(headers & table & out' & Hf & _)];
      [congruence|].
    destruct (parse_prod_located _ _ _ Hf) as [Hrows Hparse].
    rewrite Hparse in Hout. injection Hout as <-.
    eexists headers, table, _. split_and!; [done..|]. apply dedup_deduplicated, _.
  - intros r r'. split; [apply (inj classic_key)|by intros ->].
  - intros r r'. split; [apply (inj prod_key)|by intros ->].
Qed.

End Deduplication.

Section DeduplicationExamples.
#[local] Existing Instance ascii_case.

Lemma rows_deduplicated_by_row_tuple_witness :
  parse_classic spaced_soup = Ok spaced_rows
  ∧ ∃ headers table rows,
      find_best_table spaced_soup CLASSIC_HEADERS = Some (headers, table)
      ∧ classic_rows (idx_contains headers (lit "endpoint"))
          (idx_contains headers (lit "operation"))
          (idx_contains headers (lit "required")) table = Ok rows
      ∧ deduplicated classic_key rows spaced_rows.
Proof.
  split; [reflexivity|].
  destruct (rows_deduplicated_by_row_tuple spaced_soup) as [Hclassic _].
  exact (Hclassic spaced_rows eq_refl).
Defined.

(** C3 as stated fails: two rows with the same endpoint, the same operation
    and the same privileges after comma-splitting are both returned. *)
Lemma rows_equal_after_splitting_are_both_kept :
  parse_classic spaced_soup = Ok spaced_rows
  ∧ ¬ NoDup (classic_fields <$> spaced_rows).
Proof.
  split; [reflexivity|].
  intros Hnd. apply NoDup_cons in Hnd as [Hnotin _]. apply Hnotin.
  apply list_elem_of_singleton. reflexivity.
Qed.

End DeduplicationExamples.

(** ** The order of strings *)

Lemma str_leb_refl (a : str) : str_leb a a = true.
Proof. induction a as [|x a IH]; [done|]. simpl. by rewrite N.ltb_irrefl. Qed.

Lemma str_leb_total (a b : str) : str_leb a b = true ∨ str_leb b a = true.
Proof.
  revert b. induction a as [|x a IH]; intros [|y b]; simpl; auto.
  destruct (N.ltb_spec x y), (N.ltb_spec y x); auto.
Qed.

Lemma str_leb_antisym (a b : str) : str_leb a b = true → str_leb b a = true → a = b.
Proof.
  revert b. induction a as [|x a IH]; intros [|y b]; simpl; try done.
  destruct (N.ltb_spec x y), (N.ltb_spec y x); try done; try lia.
  intros Hab Hba. assert (x = y) as -> by lia. f_equal. by apply IH.
Qed.

Lemma str_leb_trans (a b c : str) :
  str_leb a b = true → str_leb b c = true → str_leb a c = true.
Proof.
  revert b c. induction a as [|x a IH]; intros [|y b] [|z c]; simpl; try done.
  destruct (N.ltb_spec x y), (N.ltb_spec y x), (N.ltb_spec y z), (N.ltb_spec z y),
    (N.ltb_spec x z), (N.ltb_spec z x); try done; try lia.
  apply IH.
Qed.

#[global] Instance str_le_refl : Reflexive str_le.
Proof. intros a. apply str_leb_refl. Qed.

#[global] Instance str_le_total : Total str_le.
Proof. intros a b. apply str_leb_total. Qed.

#[global] Instance str_le_trans : Transitive str_le.
Proof. intros a b c. apply str_leb_trans. Qed.

#[global] Instance str_le_antisym : AntiSymm (=) str_le.
Proof. intros a b. apply str_leb_antisym. Qed.

Lemma sorted_elem_of (xs : list str) (x : str) : x ∈ sorted xs ↔ x ∈ xs.
Proof. unfold sorted. by rewrite merge_sort_Permutation. Qed.

Lemma sorted_NoDup (xs : list str) : NoDup xs → NoDup (sorted xs).
Proof. unfold sorted. by rewrite merge_sort_Permutation. Qed.

Lemma sorted_StronglySorted (xs : list str) : StronglySorted str_le (sorted xs).
Proof. apply StronglySorted_merge_sort; apply _. Qed.

Lemma StronglySorted_strict (xs : list str) :
  StronglySorted str_le xs → NoDup xs → StronglySorted str_lt xs.
Proof.
  induction 1 as [|x xs Hs IH Hall]; intros Hnd; [constructor|].
  apply NoDup_cons in Hnd as [Hx Hnd].
  constructor; [by apply IH|].
  rewrite Forall_forall in Hall |- *. intros y Hy. split; [by apply Hall|].
  intros ->. done.
Qed.

(** ** Splitting at commas *)

Lemma join_cons (sep : N) (w : str) (ws : list str) :
  ws ≠ [] → join sep (w :: ws) = w ++ sep :: join sep ws.
Proof. by destruct ws. Qed.

Lemma split_on_nonempty (sep : N) (s : str) : split_on sep s ≠ [].
Proof.
  induction s as [|c s IH]; [done|]. simpl.
  destruct (c =? sep); [done|]. by destruct (split_on sep s).
Qed.

Lemma join_split_on (sep : N) (s : str) : join sep (split_on sep s) = s.
Proof.
  induction s as [|c s IH]; [done|]. simpl.
  destruct (N.eqb_spec c sep) as [->|Hne].
  - rewrite join_cons by apply split_on_nonempty. simpl. by rewrite IH.
  - pose proof (split_on_nonempty sep s) as Hn.
    destruct (split_on sep s) as [|w ws]; [done|].
    destruct ws as [|w' ws].
    + simpl in *. by rewrite IH.
    + rewrite <-IH. reflexivity.
Qed.

Lemma split_on_no_sep (sep : N) (s f : str) : f ∈ split_on sep s → sep ∉ f.
Proof.
  revert f. induction s as [|c s IH]; intros f; simpl.
  { intros ->%list_elem_of_singleton. apply not_elem_of_nil. }
  destruct (N.eqb_spec c sep) as [->|Hne].
  - intros [->|Hf]%elem_of_cons; [apply not_elem_of_nil|by apply IH].
  - destruct (split_on sep s) as [|w ws].
    + intros ->%list_elem_of_singleton. rewrite elem_of_cons, elem_of_nil. intros [?|[]]. congruence.
    + intros [->|Hf]%elem_of_cons.
      * rewrite elem_of_cons. intros [?|?]; [done|]. eapply IH; [|done]. by left.
      * apply IH. by right.
Qed.

Lemma elem_of_split_privs (s p : str) :
  p ∈ split_privs s ↔ p ≠ [] ∧ ∃ f, f ∈ split_on COMMA s ∧ p = strip f.
Proof.
  unfold split_privs. rewrite list_elem_of_fmap. setoid_rewrite list_elem_of_filter.
  split.
  - intros (f & -> & Hne & Hf). split; [done|]. by exists f.
  - intros (Hne & f & Hf & ->). by exists f.
Qed.

(** ** The schema builder *)

Section Builder.
Context `{StrCase}.

Lemma foldl_classic_step (rows : list ClassicRow.t) (eps : list Endpoint.t) (all : gset str) :
  foldl classic_step (eps, all) rows
  = (eps ++ map classic_endpoint rows,
     all ∪ list_to_set
             (flat_map (λ r, split_privs (ClassicRow.required_privileges r)) rows)).
Proof.
  revert eps all. induction rows as [|r rows IH]; intros eps all; simpl.
  { rewrite app_nil_r. f_equal. by rewrite (right_id_L ∅ (∪)). }
  rewrite IH. rewrite <-app_assoc. f_equal. rewrite list_to_set_app_L.
  by rewrite (assoc_L (∪)).
Qed.

Lemma foldl_prod_step (rows : list ProdRow.t) (eps : list Endpoint.t) (all : gset str) :
  foldl prod_step (eps, all) rows
  = (eps ++ map prod_endpoint rows,
     all ∪ list_to_set
             (flat_map (λ r, split_privs (ProdRow.privilege_requirements r)) rows)).
Proof.
  revert eps all. induction rows as [|r rows IH]; intros eps all; simpl.
  { rewrite app_nil_r. f_equal. by rewrite (right_id_L ∅ (∪)). }
  rewrite IH. rewrite <-app_assoc. f_equal. rewrite list_to_set_app_L.
  by rewrite (assoc_L (∪)).
Qed.

Lemma build_schema_fields (now : str) (classic_rows : list ClassicRow.t)
    (prod_rows : list ProdRow.t) :
  let schema := build_schema now classic_rows prod_rows in
  Schema.version schema = lit "1.0.0"
  ∧ Schema.last_updated schema = now
  ∧ Schema.all_privileges schema = sorted (elements (all_privs classic_rows prod_rows))
  ∧ Schema.privilege_categories schema
    = foldl add_category ∅ (Schema.all_privileges schema)
  ∧ ApiSection.endpoints (Schema.classic_api schema) = map classic_endpoint classic_rows
  ∧ ApiSection.endpoints (Schema.jamf_pro_api schema) = map prod_endpoint prod_rows.
Proof.
  unfold build_schema, all_privs, privileges_seen.
  rewrite foldl_classic_step, foldl_prod_step. simpl.
  rewrite list_to_set_app_L, !(left_id_L ∅ (∪)). done.
Qed.

Lemma elem_of_privileges_seen (classic_rows : list ClassicRow.t)
    (prod_rows : list ProdRow.t) (p : str) :
  p ∈ privileges_seen classic_rows prod_rows
  ↔ (∃ r, r ∈ classic_rows ∧ p ∈ split_privs (ClassicRow.required_privileges r))
    ∨ (∃ r, r ∈ prod_rows ∧ p ∈ split_privs (ProdRow.privilege_requirements r)).
Proof.
  unfold privileges_seen. rewrite elem_of_app, !list_elem_of_In, !in_flat_map.
  by repeat setoid_rewrite list_elem_of_In.
Qed.

Lemma elem_of_all_privileges (now : str) (classic_rows : list ClassicRow.t)
    (prod_rows : list ProdRow.t) (p : str) :
  p ∈ Schema.all_privileges (build_schema now classic_rows prod_rows)
  ↔ p ∈ privileges_seen classic_rows prod_rows.
Proof.
  destruct (build_schema_fields now classic_rows prod_rows) as (_ & _ & -> & _).
  rewrite sorted_elem_of, elem_of_elements. unfold all_privs.
  by rewrite elem_of_list_to_set.
Qed.

Lemma NoDup_all_privileges (now : str) (classic_rows : list ClassicRow.t)
    (prod_rows : list ProdRow.t) :
  NoDup (Schema.all_privileges (build_schema now classic_rows prod_rows)).
Proof.
  destruct (build_schema_fields now classic_rows prod_rows) as (_ & _ & -> & _).
  apply sorted_NoDup, NoDup_elements.
Qed.

(** C6.  The field [all_privileges] of the built schema is sorted in the
    order of strings without repeats, and holds exactly the privilege strings
    of the privileges lists of the classic and pro rows, a privileges list
    being the non-empty trimmed fragments of the cell text split at commas. *)
Theorem all_privileges_sorted_union (now : str) (classic_rows : list ClassicRow.t)
    (prod_rows : list ProdRow.t) :
  let schema := build_schema now classic_rows prod_rows in
  StronglySorted str_lt (Schema.all_privileges schema)
  ∧ NoDup (Schema.all_privileges schema)
  ∧ (∀ p, p ∈ Schema.all_privileges schema
       ↔ (∃ r, r ∈ classic_rows ∧ p ∈ split_privs (ClassicRow.required_privileges r))
         ∨ (∃ r, r ∈ prod_rows ∧ p ∈ split_privs (ProdRow.privilege_requirements r)))
  ∧ Endpoint.privileges <$> ApiSection.endpoints (Schema.classic_api schema)
    = (λ r, split_privs (ClassicRow.required_privileges r)) <$> classic_rows
  ∧ Endpoint.privileges <$> ApiSection.endpoints (Schema.jamf_pro_api schema)
    = (λ r, split_privs (ProdRow.privilege_requirements r)) <$> prod_rows
  ∧ (∀ s p, p ∈ split_privs s ↔ p ≠ [] ∧ ∃ f, f ∈ split_on COMMA s ∧ p = strip f)
  ∧ (∀ s, join COMMA (split_on COMMA s) = s
          ∧ ∀ f, f ∈ split_on COMMA s → COMMA ∉ f).
Proof.
  intros schema.
  destruct (build_schema_fields now classic_rows prod_rows)
    as (_ & _ & Hall & _ & Hc & Hp). fold schema in Hall, Hc, Hp.
  split_and!.
  - apply StronglySorted_strict; [|apply NoDup_all_privileges].
    rewrite Hall. apply sorted_StronglySorted.
  - apply NoDup_all_privileges.
  - intros p. unfold schema. by rewrite elem_of_all_privileges, elem_of_privileges_seen.
  - rewrite Hc. rewrite <-list_fmap_compose. done.
  - rewrite Hp. rewrite <-list_fmap_compose. done.
  - apply elem_of_split_privs.
  - intros s. split; [apply join_split_on|apply split_on_no_sep].
Qed.

(** C10.  Every classic endpoint object of the built schema has the field
    [deprecation_date], and its value is null; the classic-only document
    carries these same objects. *)
Theorem classic_endpoints_have_null_deprecation (now : str)
    (classic_rows : list ClassicRow.t) (prod_rows : list ProdRow.t) :
  let schema := build_schema now classic_rows prod_rows in
  Forall (λ e, Endpoint.deprecation_date e = None)
    (ApiSection.endpoints (Schema.classic_api schema))
  ∧ length (ApiSection.endpoints (Schema.classic_api schema)) = length classic_rows
  ∧ classic_only schema
    = EndpointsOnly (lit "1.0.0") now (ApiSection.endpoints (Schema.classic_api schema)).
Proof.
  intros schema.
  destruct (build_schema_fields now classic_rows prod_rows)
    as (Hv & Hl & _ & _ & Hc & _). fold schema in Hv, Hl, Hc.
  split_and!.
  - rewrite Hc. apply Forall_fmap, Forall_forall. done.
  - rewrite Hc. apply length_map.
  - unfold classic_only. by rewrite Hv, Hl.
Qed.

End Builder.

(** ** Deprecation dates *)

Section Deprecation.
Context `{StrCase}.

Lemma upper_NA : upper NA = NA.
Proof. unfold NA. rewrite upper_ascii by ascii_text. reflexivity. Qed.

Lemma cell_deprecation_spec (text : str) :
  cell_deprecation text
  = if bool_decide (clean text = [] ∨ upper (clean text) = NA) then None
    else Some (clean text).
Proof.
  unfold cell_deprecation, deprecation_of. cbv zeta.
  destruct (decide (clean text = [])) as [He|Hne].
  - rewrite He. rewrite (bool_decide_eq_true_2 ([] = [])) by done.
    rewrite (bool_decide_eq_false_2 (NA = [])) by done.
    change (strip NA) with NA. rewrite upper_NA.
    rewrite (bool_decide_eq_true_2 (NA = NA)) by done.
    by rewrite bool_decide_eq_true_2 by (by left).
  - rewrite (bool_decide_eq_false_2 (clean text = [])) by done.
    rewrite (bool_decide_eq_false_2 (clean text = [])) by done.
    rewrite strip_clean.
    rewrite (bool_decide_ext (clean text = [] ∨ upper (clean text) = NA)
               (upper (clean text) = NA)) by tauto.
    done.
Qed.

Lemma cell_deprecation_ascii (text : string) :
  Forall is_ascii (clean (lit text)) →
  cell_deprecation (lit text)
  = if bool_decide (clean (lit text) = []
                    ∨ map ascii_upper (clean (lit text)) = NA)
    then None else Some (clean (lit text)).
Proof.
  intros Ha. rewrite cell_deprecation_spec. by rewrite (upper_ascii _ Ha).
Qed.

Lemma emitted_deprecation (i_endpoint i_operation i_priv i_depr : Z) (tr : Tr)
    (r : ProdRow.t) :
  (0 ≤ i_endpoint)%Z → (0 ≤ i_operation)%Z → (0 ≤ i_priv)%Z → (0 ≤ i_depr)%Z →
  emitted (prod_row i_endpoint i_operation i_priv i_depr tr) = Some r →
  ∃ text, tds tr !! Z.to_nat i_depr = Some text
          ∧ Endpoint.deprecation_date (prod_endpoint r) = cell_deprecation text.
Proof.
  intros He Ho Hp Hd Hr.
  destruct (prod_row_skips i_endpoint i_operation i_priv i_depr tr He Ho Hp Hd)
    as (_ & _ & _ & Hemit).
  destruct (Hemit r Hr) as (o & d & _ & _ & _ & _ & Hld & Hdate).
  apply list_lookup_fmap_Some in Hld as (text & -> & Htext).
  exists text. split; [done|].
  unfold prod_endpoint, cell_deprecation. simpl. by rewrite Hdate.
Qed.

(** C5.  In the pro pipeline the text of a deprecation cell gives the field
    [deprecation_date] of the endpoint object: null when the normalized text
    is empty or equals "N/A" after upper-casing, and the normalized text
    itself otherwise; and the rows are deduplicated by a key that includes
    the deprecation text. *)
Theorem deprecation_null_or_verbatim (soup : Soup) (now : str)
    (classic_rows : list ClassicRow.t) :
  (∀ text,
     cell_deprecation text
     = if bool_decide (clean text = [] ∨ upper (clean text) = NA) then None
       else Some (clean text))
  ∧ cell_deprecation (lit "") = None
  ∧ cell_deprecation (lit "N/A") = None
  ∧ cell_deprecation (lit "n/a") = None
  ∧ cell_deprecation (lit "iOS 18") = Some (lit "iOS 18")
  ∧ (∀ out, parse_prod soup = Ok out →
       ∃ headers table rows,
         find_best_table soup PROD_HEADERS = Some (headers, table)
         ∧ prod_rows (idx_contains headers (lit "endpoint"))
             (idx_contains headers (lit "operation"))
             (idx_contains headers (lit "privilege"))
             (idx_contains headers (lit "deprecation")) table = Ok rows
         ∧ deduplicated prod_key rows out
         ∧ ApiSection.endpoints
             (Schema.jamf_pro_api (build_schema now classic_rows out))
           = prod_endpoint <$> out
         ∧ ∀ r, r ∈ out →
             ∃ tr text,
               tr ∈ table
               ∧ prod_row (idx_contains headers (lit "endpoint"))
                   (idx_contains headers (lit "operation"))
                   (idx_contains headers (lit "privilege"))
                   (idx_contains headers (lit "deprecation")) tr = Ok (Some r)
               ∧ tds tr !! Z.to_nat (idx_contains headers (lit "deprecation")) = Some text
               ∧ Endpoint.deprecation_date (prod_endpoint r) = cell_deprecation text)
  ∧ (∀ r r' : ProdRow.t,
       prod_key r = prod_key r' → ProdRow.deprecation_date r = ProdRow.deprecation_date r').
Proof.
  split_and!.
  - apply cell_deprecation_spec.
  - by rewrite cell_deprecation_ascii by ascii_text.
  - by rewrite cell_deprecation_ascii by ascii_text.
  - by rewrite cell_deprecation_ascii by ascii_text.
  - by rewrite cell_deprecation_ascii by ascii_text.
  - intros out Hout.
    destruct (parse_prod_cases soup) as [[_ Hraise]|(headers & table & out' & Hf & _)];
      [congruence|].
    destruct (parse_prod_located _ _ _ Hf) as [Hrows Hparse].
    destruct (prod_resolves _ _ _ Hf) as (He & Ho & Hp & Hd).
    rewrite Hparse in Hout. injection Hout as <-.
    pose proof (dedup_deduplicated prod_key
      (omap (λ tr, emitted (prod_row (idx_contains headers (lit "endpoint"))
                              (idx_contains headers (lit "operation"))
                              (idx_contains headers (lit "privilege"))
                              (idx_contains headers (lit "deprecation")) tr)) table))
      as Hdd.
    eexists headers, table, _. split_and!; [done|done|done| |].
    + by destruct (build_schema_fields now classic_rows
        (dedup prod_key ∅ [] (omap (λ tr, emitted (prod_row (idx_contains headers (lit "endpoint"))
                              (idx_contains headers (lit "operation"))
                              (idx_contains headers (lit "privilege"))
                              (idx_contains headers (lit "deprecation")) tr)) table)))
        as (_ & _ & _ & _ & _ & Hp').
    + intros r Hr. destruct Hdd as (_ & _ & Hmem & _).
      apply Hmem, list_elem_of_omap in Hr as (tr & Htr & Hemit).
      destruct (emitted_deprecation _ _ _ _ tr r He Ho Hp Hd Hemit) as (text & Htext & Hdate).
      exists tr, text. split_and!; try done.
      destruct (prod_row_skips _ _ _ _ tr He Ho Hp Hd) as (-> & _). by rewrite Hemit.
  - by intros r r' ->%(inj prod_key).
Qed.

End Deprecation.

Section DeprecationExamples.
#[local] Existing Instance ascii_case.

Lemma deprecation_null_or_verbatim_witness :
  parse_prod prod_soup = Ok prod_out
  ∧ Endpoint.deprecation_date
      <$> ApiSection.endpoints (Schema.jamf_pro_api (build_schema [] [] prod_out))
    = [None; None; Some (lit "iOS 18")]
  ∧ ∃ headers table rows,
      find_best_table prod_soup PROD_HEADERS = Some (headers, table)
      ∧ prod_rows (idx_contains headers (lit "endpoint"))
          (idx_contains headers (lit "operation"))
          (idx_contains headers (lit "privilege"))
          (idx_contains headers (lit "deprecation")) table = Ok rows
      ∧ deduplicated prod_key rows prod_out.
Proof.
  split; [reflexivity|]. split; [reflexivity|].
  destruct (deprecation_null_or_verbatim prod_soup [] []) as (_ & _ & _ & _ & _ & Hpro & _).
  destruct (Hpro prod_out eq_refl) as (headers & table & rows & Hf & Hrows & Hdd & _).
  by exists headers, table, rows.
Defined.

End DeprecationExamples.

(** ** Categories *)

Lemma is_prefix_drop (sep s : str) :
  is_prefix sep s = true → s = sep ++ drop (length sep) s.
Proof.
  intros [post ->]%is_prefix_spec. by rewrite drop_app_length.
Qed.

Lemma split_once_spec (sep s : str) :
  contains sep s = true →
  s = (split_once sep s).1 ++ sep ++ (split_once sep s).2
  ∧ ∀ a r, s = a ++ sep ++ r → (length (split_once sep s).1 ≤ length a)%nat.
Proof.
  induction s as [|c s IH]; simpl.
  - rewrite orb_false_r. intros Hp. rewrite Hp. simpl. split; [|intros; lia].
    by apply is_prefix_drop.
  - destruct (is_prefix sep (c :: s)) eqn:Hp; simpl.
    + intros _. split; [|intros; lia]. by apply is_prefix_drop.
    + intros Hc. destruct (IH Hc) as [Hs Hmin].
      destruct (split_once sep s) as [a0 r0]. simpl in *. split.
      * by rewrite <-Hs.
      * intros [|c' a] r Ha.
        { simpl in Ha. assert (is_prefix sep (c :: s) = true) as Hp'.
          { apply is_prefix_spec. by exists r. }
          congruence. }
        injection Ha as _ Ha. simpl. specialize (Hmin a r Ha). lia.
Qed.

Lemma categorize_with_separator (p : str) :
  contains SEP p = true →
  ∃ a r, p = a ++ SEP ++ r
         ∧ (∀ a' r', p = a' ++ SEP ++ r' → (length a ≤ length a')%nat)
         ∧ categorize p = (strip a, r).
Proof.
  intros Hc. destruct (split_once_spec SEP p Hc) as [Hp Hmin].
  unfold categorize. rewrite Hc.
  destruct (split_once SEP p) as [a r]. by exists a, r.
Qed.

Lemma categorize_without_separator (p : str) :
  contains SEP p = false → categorize p = (lit "Other", p).
Proof. intros Hc. unfold categorize. by rewrite Hc. Qed.

Lemma add_category_lookup (m : gmap str (list str)) (p action : str) :
  add_category m p !! action
  = if decide (action = (categorize p).1)
    then Some (let l := default [] (m !! action) in
               if decide ((categorize p).2 ∈ l) then l else l ++ [(categorize p).2])
    else m !! action.
Proof.
  unfold add_category, setdefault. destruct (categorize p) as [a r]. simpl.
  destruct (m !! a) as [l0|] eqn:Ha; simpl.
  - rewrite Ha. simpl. case_decide as Hr.
    + case_decide as Hact; [|done]. subst action. rewrite Ha. simpl.
      by rewrite decide_True.
    + case_decide as Hact.
      * subst action. rewrite lookup_insert_eq, Ha. simpl. by rewrite decide_False.
      * by rewrite lookup_insert_ne.
  - rewrite lookup_insert_eq. simpl.
    destruct (decide (r ∈ [])) as [Hr%not_elem_of_nil|_]; [done|].
    case_decide as Hact.
    + subst action. rewrite lookup_insert_eq, Ha. simpl.
      by destruct (decide (r ∈ [])) as [Hr%not_elem_of_nil|_].
    + by rewrite !lookup_insert_ne.
Qed.

Lemma foldl_extend (acc rs : list str) :
  foldl (λ acc r, if decide (r ∈ acc) then acc else acc ++ [r]) acc rs
  = acc ++ firsts acc rs.
Proof.
  revert acc. induction rs as [|r rs IH]; intros acc; simpl.
  { by rewrite app_nil_r. }
  case_decide; [apply IH|]. rewrite IH. by rewrite <-app_assoc.
Qed.

Lemma resources_in_cons (action p : str) (ps : list str) :
  resources_in action (p :: ps)
  = if decide (action = (categorize p).1)
    then (categorize p).2 :: resources_in action ps
    else resources_in action ps.
Proof.
  unfold resources_in. rewrite fmap_cons, filter_cons.
  case_decide as Hp; case_decide as Ha; try done; by subst.
Qed.

Lemma elem_of_resources_in (action r : str) (ps : list str) :
  r ∈ resources_in action ps ↔ ∃ p, p ∈ ps ∧ categorize p = (action, r).
Proof.
  unfold resources_in. rewrite list_elem_of_fmap. split.
  - intros ([a r'] & -> & [Ha (p & Hp & Hin)%list_elem_of_fmap]%list_elem_of_filter).
    simpl in *. subst a. by exists p.
  - intros (p & Hin & Hp). exists (action, r). split; [done|].
    apply list_elem_of_filter. split; [done|]. rewrite <-Hp.
    by apply list_elem_of_fmap_2.
Qed.

Lemma foldl_add_category (ps : list str) (m : gmap str (list str)) (action : str) :
  foldl add_category m ps !! action
  = match resources_in action ps with
    | [] => m !! action
    | rs => Some (default [] (m !! action) ++ firsts (default [] (m !! action)) rs)
    end.
Proof.
  revert m. induction ps as [|p ps IH]; intros m; [done|].
  simpl. rewrite IH, resources_in_cons, add_category_lookup.
  case_decide as Hact; [|done].
  set (l := default [] (m !! action)). simpl.
  destruct (resources_in action ps) as [|r rs] eqn:Hrs.
  - case_decide as Hr; [by rewrite app_nil_r|done].
  - f_equal. cbn [firsts]. case_decide as Hr; [done|]. by rewrite <-app_assoc.
Qed.

Lemma categories_lookup (ps : list str) (action : str) :
  foldl add_category ∅ ps !! action
  = match first_occurrences (resources_in action ps) with
    | [] => None
    | l => Some l
    end.
Proof.
  rewrite foldl_add_category, lookup_empty. unfold first_occurrences. simpl.
  by destruct (resources_in action ps) as [|r rs].
Qed.

(** *** Privileges of normalized cells

    In a privilege that comes from a normalized cell the text before the
    separator has no blank at either end, so that trimming it changes
    nothing. *)

Lemma spaced_app_l (b : bool) (x y : str) : spaced b (x ++ y) = true → spaced b x = true.
Proof.
  revert b. induction x as [|c x IH]; intros b; simpl; [done|].
  destruct (isspace c).
  - intros [Hc Hs]%andb_prop. rewrite Hc. simpl. by apply IH.
  - apply IH.
Qed.

Lemma spaced_app_r (b : bool) (x y : str) :
  spaced b (x ++ y) = true → spaced false y = true.
Proof.
  revert b. induction x as [|c x IH]; intros b; simpl.
  - destruct b; [apply spaced_weaken|done].
  - destruct (isspace c).
    + intros [_ Hs]%andb_prop. by apply (IH true).
    + apply IH.
Qed.

Lemma join_elem (sep : N) (ws : list str) (f : str) :
  f ∈ ws → ∃ pre post, join sep ws = pre ++ f ++ post.
Proof.
  induction ws as [|w ws IH]; [by intros ?%not_elem_of_nil|].
  intros [->|Hf]%elem_of_cons.
  - destruct ws as [|w' ws].
    + exists [], []. simpl. by rewrite app_nil_r.
    + exists [], (sep :: join sep (w' :: ws)). by rewrite join_cons.
  - destruct (IH Hf) as (pre & post & Hj).
    destruct ws as [|w' ws]; [by apply not_elem_of_nil in Hf|].
    exists (w ++ sep :: pre), post. rewrite join_cons by done. rewrite Hj.
    by rewrite <-app_assoc.
Qed.

Lemma spaced_fragment (b : bool) (s f : str) :
  spaced b s = true → f ∈ split_on COMMA s → spaced false f = true.
Proof.
  intros Hs Hf. destruct (join_elem COMMA _ _ Hf) as (pre & post & Hj).
  rewrite join_split_on in Hj. subst s.
  apply spaced_app_r in Hs. by apply spaced_app_l in Hs.
Qed.

Lemma rstrip_before_space (b : bool) (a y : str) :
  spaced b (a ++ SPACE :: y) = true → rstrip a = a.
Proof.
  revert b. induction a as [|c a IH]; intros b; [done|].
  rewrite rstrip_cons. simpl. destruct (isspace c) eqn:Hc.
  - intros [_ Hs]%andb_prop. specialize (IH true Hs).
    destruct a as [|d a]; [done|].
    rewrite IH. by rewrite bool_decide_eq_false_2.
  - intros Hs. specialize (IH false Hs). rewrite IH.
    case_bool_decide as Ha; [by subst|done].
Qed.

Lemma strip_action (text p a r : str) :
  p ∈ split_privs (clean text) → p = a ++ SEP ++ r → strip a = a.
Proof.
  intros (_ & f & Hf & ->)%elem_of_split_privs Hp.
  pose proof (spaced_fragment _ _ _ (spaced_clean text) Hf) as Hs.
  apply spaced_lstrip, spaced_rstrip in Hs. fold (strip f) in Hs. rewrite Hp in Hs.
  unfold strip. rewrite (lstrip_spaced a) by by eapply spaced_app_l.
  by eapply (rstrip_before_space true a (lit "- " ++ r)).
Qed.

Lemma categorize_normalized (text p : str) :
  p ∈ split_privs (clean text) → contains SEP p = true →
  ∃ a r, p = a ++ SEP ++ r
         ∧ (∀ a' r', p = a' ++ SEP ++ r' → (length a ≤ length a')%nat)
         ∧ categorize p = (a, r).
Proof.
  intros Hp Hc. destruct (categorize_with_separator p Hc) as (a & r & Hpa & Hmin & Hcat).
  exists a, r. split_and!; [done..|]. by rewrite (strip_action text p a r) in Hcat.
Qed.

Section Categories.
Context `{StrCase}.

Lemma categories_of_schema (now : str) (classic_rows : list ClassicRow.t)
    (prod_rows : list ProdRow.t) (action : str) :
  let schema := build_schema now classic_rows prod_rows in
  Schema.privilege_categories schema !! action
  = match first_occurrences (resources_in action (Schema.all_privileges schema)) with
    | [] => None
    | l => Some l
    end.
Proof.
  intros schema.
  destruct (build_schema_fields now classic_rows prod_rows) as (_ & _ & _ & Hcat & _).
  fold schema in Hcat. rewrite Hcat. apply categories_lookup.
Qed.

Lemma category_listing (now : str) (classic_rows : list ClassicRow.t)
    (prod_rows : list ProdRow.t) (action : str) (l : list str) :
  let schema := build_schema now classic_rows prod_rows in
  Schema.privilege_categories schema !! action = Some l →
  l = first_occurrences (resources_in action (Schema.all_privileges schema)).
Proof.
  intros schema. unfold schema. rewrite categories_of_schema.
  destruct (first_occurrences _); [done|]. by intros [= <-].
Qed.

Lemma parse_classic_normalized (soup : Soup) (out : list ClassicRow.t) (r : ClassicRow.t) :
  parse_classic soup = Ok out → r ∈ out →
  ∃ text, ClassicRow.required_privileges r = clean text.
Proof.
  intros Hout Hr.
  destruct (parse_classic_cases soup) as [[_ Hraise]|(headers & table & out' & Hf & _)];
    [congruence|].
  destruct (parse_classic_located _ _ _ Hf) as [_ Hparse].
  destruct (classic_resolves _ _ _ Hf) as (He & Ho & Hp).
  rewrite Hparse in Hout. injection Hout as <-.
  rewrite dedup_first_occurrences in Hr by apply _.
  apply elem_of_firsts in Hr as [Hr _].
  apply list_elem_of_omap in Hr as (tr & _ & Hemit).
  destruct (classic_row_skips _ _ _ tr He Ho Hp) as (_ & _ & _ & Hcells).
  destruct (Hcells r Hemit) as (o & _ & _ & _ & Hpriv).
  apply list_lookup_fmap_Some in Hpriv as (text & -> & _). by exists text.
Qed.

Lemma parse_prod_normalized (soup : Soup) (out : list ProdRow.t) (r : ProdRow.t) :
  parse_prod soup = Ok out → r ∈ out →
  ∃ text, ProdRow.privilege_requirements r = clean text.
Proof.
  intros Hout Hr.
  destruct (parse_prod_cases soup) as [[_ Hraise]|(headers & table & out' & Hf & _)];
    [congruence|].
  destruct (parse_prod_located _ _ _ Hf) as [_ Hparse].
  destruct (prod_resolves _ _ _ Hf) as (He & Ho & Hp & Hd).
  rewrite Hparse in Hout. injection Hout as <-.
  rewrite dedup_first_occurrences in Hr by apply _.
  apply elem_of_firsts in Hr as [Hr _].
  apply list_elem_of_omap in Hr as (tr & _ & Hemit).
  destruct (prod_row_skips _ _ _ _ tr He Ho Hp Hd) as (_ & _ & _ & Hcells).
  destruct (Hcells r Hemit) as (o & d & _ & _ & _ & Hpriv & _).
  apply list_lookup_fmap_Some in Hpriv as (text & -> & _). by exists text.
Qed.

(** C1, amended.  In the category map of the built schema a privilege string
    with the separator " - " is split at the first separator into action and
    resource, and the resource is listed under the trimmed action; a string
    without the separator is listed whole under "Other"; a category lists each
    resource once; and the resources of a category stand in the order in which
    their privilege strings occur in the sorted list [all_privileges], the
    first occurrence of a resource deciding its place.  For the rows that the
    parsers return, whose privileges cells are normalized, the trimming
    changes nothing. *)
Theorem categories_follow_sorted_privileges (now : str)
    (classic_rows : list ClassicRow.t) (prod_rows : list ProdRow.t) :
  let schema := build_schema now classic_rows prod_rows in
  (∀ p, contains SEP p = true ↔ substring SEP p)
  ∧ (∀ p, contains SEP p = true →
       ∃ a r, p = a ++ SEP ++ r
              ∧ (∀ a' r', p = a' ++ SEP ++ r' → (length a ≤ length a')%nat)
              ∧ categorize p = (strip a, r))
  ∧ (∀ p, contains SEP p = false → categorize p = (lit "Other", p))
  ∧ (∀ p, p ∈ Schema.all_privileges schema →
       ∃ l, Schema.privilege_categories schema !! (categorize p).1 = Some l
            ∧ (categorize p).2 ∈ l)
  ∧ (∀ action l,
       Schema.privilege_categories schema !! action = Some l →
       NoDup l
       ∧ ∀ r, r ∈ l ↔ ∃ p, p ∈ Schema.all_privileges schema ∧ categorize p = (action, r))
  ∧ (∀ action,
       Schema.privilege_categories schema !! action
       = match first_occurrences (resources_in action (Schema.all_privileges schema)) with
         | [] => None
         | l => Some l
         end)
  ∧ Schema.all_privileges schema = sorted (elements (all_privs classic_rows prod_rows))
  ∧ (∀ text p, p ∈ split_privs (clean text) → contains SEP p = true →
       ∃ a r, p = a ++ SEP ++ r
              ∧ (∀ a' r', p = a' ++ SEP ++ r' → (length a ≤ length a')%nat)
              ∧ categorize p = (a, r))
  ∧ (∀ soup out r, parse_classic soup = Ok out → r ∈ out →
       ∃ text, ClassicRow.required_privileges r = clean text)
  ∧ (∀ soup out r, parse_prod soup = Ok out → r ∈ out →
       ∃ text, ProdRow.privilege_requirements r = clean text).
Proof.
  intros schema. split_and!;
    [..|apply categorize_normalized|apply parse_classic_normalized
       |apply parse_prod_normalized].
  - intros p. apply contains_spec.
  - apply categorize_with_separator.
  - apply categorize_without_separator.
  - intros p Hp. unfold schema. rewrite categories_of_schema. fold schema.
    assert ((categorize p).2 ∈ first_occurrences
              (resources_in (categorize p).1 (Schema.all_privileges schema))) as Hin.
    { apply elem_of_firsts. split; [|apply not_elem_of_nil].
      apply elem_of_resources_in. exists p. split; [done|]. by destruct (categorize p). }
    destruct (first_occurrences _) as [|x l]; [by apply not_elem_of_nil in Hin|].
    by exists (x :: l).
  - intros action l Hl. apply category_listing in Hl. fold schema in Hl. subst l.
    split; [apply NoDup_firsts|]. intros r. unfold first_occurrences.
    rewrite elem_of_firsts, elem_of_resources_in. split; [by intros [? _]|].
    intros Hr. split; [done|]. apply not_elem_of_nil.
  - intros action. apply categories_of_schema.
  - by destruct (build_schema_fields now classic_rows prod_rows) as (_ & _ & Hall & _).
Qed.

End Categories.

Section CategoryExamples.
#[local] Existing Instance ascii_case.

Lemma categories_follow_sorted_privileges_witness :
  Schema.all_privileges (build_schema [] unsorted_rows [])
  = [lit "Read - Accounts"; lit "Read - Zones"]
  ∧ ∃ l, Schema.privilege_categories (build_schema [] unsorted_rows [])
           !! (categorize (lit "Read - Zones")).1 = Some l
         ∧ (categorize (lit "Read - Zones")).2 ∈ l.
Proof.
  split; [reflexivity|].
  destruct (categories_follow_sorted_privileges [] unsorted_rows [])
    as (_ & _ & _ & Hlisted & _).
  apply Hlisted. vm_compute. apply list_elem_of_In. right. left. reflexivity.
Defined.

(** C1 as stated fails: the privileges are first seen in the order
    "Read - Zones", "Read - Accounts", and the category "Read" lists
    "Accounts" before "Zones"; and a privilege whose text before the first
    separator ends in a blank is listed under the trimmed action. *)
Lemma categories_are_not_in_first_seen_order :
  privileges_seen unsorted_rows [] = [lit "Read - Zones"; lit "Read - Accounts"]
  ∧ first_occurrences (resources_in (lit "Read") (privileges_seen unsorted_rows []))
    = [lit "Zones"; lit "Accounts"]
  ∧ Schema.privilege_categories (build_schema [] unsorted_rows []) !! lit "Read"
    = Some [lit "Accounts"; lit "Zones"]
  ∧ Schema.privilege_categories (build_schema [] unsorted_rows []) !! lit "Read"
    ≠ Some (first_occurrences
              (resources_in (lit "Read") (privileges_seen unsorted_rows [])))
  ∧ split_once SEP (lit "Read  - Zones") = (lit "Read ", lit "Zones")
  ∧ Schema.privilege_categories (build_schema [] wide_rows []) !! lit "Read "
    = None
  ∧ Schema.privilege_categories (build_schema [] wide_rows []) !! lit "Read"
    = Some [lit "Zones"].
Proof.
  split_and!; try (vm_compute; reflexivity).
  vm_compute. discriminate.
Qed.

End CategoryExamples.

(** ** Writing the files *)

Lemma roles_files_differ :
  JAMF_ROLES ≠ CLASSIC_ROLES ∧ JAMF_ROLES ≠ PROD_ROLES ∧ JAMF_ROLES ≠ PRIV_CATEGORIES
  ∧ CLASSIC_ROLES ≠ PROD_ROLES ∧ CLASSIC_ROLES ≠ PRIV_CATEGORIES
  ∧ PROD_ROLES ≠ PRIV_CATEGORIES.
Proof. split_and!; intros Heq; vm_compute in Heq; discriminate Heq. Qed.

Lemma NoDup_roles_files : NoDup [JAMF_ROLES; CLASSIC_ROLES; PROD_ROLES; PRIV_CATEGORIES].
Proof.
  destruct roles_files_differ as (H12 & H13 & H14 & H23 & H24 & H34).
  repeat (constructor; [rewrite ?elem_of_cons, elem_of_nil; tauto|]). constructor.
Qed.

Lemma written_lookup (schema : Schema.t) (fs : gmap str FileState) :
  written schema fs !! JAMF_ROLES = Some (Complete (FullSchema schema))
  ∧ written schema fs !! CLASSIC_ROLES = Some (Complete (classic_only schema))
  ∧ written schema fs !! PROD_ROLES = Some (Complete (prod_only schema))
  ∧ written schema fs !! PRIV_CATEGORIES = Some (Complete (priv_cats schema))
  ∧ ∀ path, path ∉ [JAMF_ROLES; CLASSIC_ROLES; PROD_ROLES; PRIV_CATEGORIES] →
      written schema fs !! path = fs !! path.
Proof.
  destruct roles_files_differ as (H12 & H13 & H14 & H23 & H24 & H34).
  unfold written. split_and!.
  - by rewrite !lookup_insert_ne, lookup_insert_eq by done.
  - by rewrite !lookup_insert_ne, lookup_insert_eq by done.
  - by rewrite lookup_insert_ne, lookup_insert_eq by done.
  - by rewrite lookup_insert_eq.
  - intros path Hpath. rewrite !elem_of_cons, elem_of_nil in Hpath.
    rewrite !lookup_insert_ne; [done|intros Heq; apply Hpath; rewrite <-Heq; auto 6..].
Qed.

Section Writes.
Variable disk : str → Document → World → write_outcome.

Lemma write_text_cases (p : str) (d : Document) (w : World) :
  (disk p d w = Stored
   ∧ write_text disk p d w
     = (Ok tt, {| dirs := dirs w; files := <[p := Complete d]> (files w) |}))
  ∨ (∃ e, write_text disk p d w = (Raise e, w))
  ∨ (∃ e, write_text disk p d w
          = (Raise e, {| dirs := dirs w; files := <[p := Damaged]> (files w) |})).
Proof.
  unfold write_text. destruct (disk p d w) as [|e|e].
  - by left.
  - right. left. by exists e.
  - right. right. by exists e.
Qed.

(** Of a list of documents for different paths the writes store a first
    part; the write after it, if there is one, raises and leaves its file as
    it was or damaged; the files of the later documents and all other files
    are as they were. *)
Lemma write_outputs_spec (docs : list (str * Document)) (w : World) :
  NoDup docs.*1 →
  dirs (snd (write_outputs disk docs w)) = dirs w
  ∧ ∃ n,
      (n ≤ length docs)%nat
      ∧ (fst (write_outputs disk docs w) = Ok 0%Z ↔ n = length docs)
      ∧ ((n < length docs)%nat → ∃ e, fst (write_outputs disk docs w) = Raise e)
      ∧ (∀ i path d, (i < n)%nat → docs !! i = Some (path, d) →
           files (snd (write_outputs disk docs w)) !! path = Some (Complete d))
      ∧ (∀ path d, docs !! n = Some (path, d) →
           files (snd (write_outputs disk docs w)) !! path = files w !! path
           ∨ files (snd (write_outputs disk docs w)) !! path = Some Damaged)
      ∧ (∀ i path d, (n < i)%nat → docs !! i = Some (path, d) →
           files (snd (write_outputs disk docs w)) !! path = files w !! path)
      ∧ (∀ path, path ∉ docs.*1 →
           files (snd (write_outputs disk docs w)) !! path = files w !! path).
Proof.
  revert w. induction docs as [|[p d] docs IH]; intros w Hnd.
  { simpl. split; [done|]. exists 0%nat. split_and!; try done. intros ?. lia. }
  rewrite fmap_cons in Hnd. apply NoDup_cons in Hnd as [Hp Hnd]. simpl in Hp.
  assert (∀ j path d', docs !! j = Some (path, d') → path ≠ p) as Hother.
  { intros j path d' Hj ->. apply Hp.
    apply list_elem_of_lookup_2 in Hj.
    by apply (list_elem_of_fmap_2 fst) in Hj. }
  cbn [write_outputs].
  destruct (write_text_cases p d w) as [[_ ->]|[[e ->]|[e ->]]].
  - set (w1 := {| dirs := dirs w; files := <[p := Complete d]> (files w) |}).
    destruct (IH w1 Hnd) as (Hdirs & n & Hn & Hok & Hraise & Hdone & Hat & Hlater & Hrest).
    split; [done|]. exists (S n). simpl length. split_and!.
    + lia.
    + rewrite Hok. lia.
    + intros Hlt. apply Hraise. lia.
    + intros [|i] path d' Hi; simpl.
      * intros [= <- <-]. rewrite Hrest by done. apply lookup_insert_eq.
      * apply Hdone. lia.
    + intros path d' Hl. simpl in Hl.
      destruct (Hat path d' Hl) as [Hsame|Hbad]; [left|by right].
      rewrite Hsame. apply lookup_insert_ne. intros ->. by eapply Hother.
    + intros [|i] path d' Hi; [lia|]. simpl. intros Hl.
      rewrite (Hlater i path d') by (done || lia).
      apply lookup_insert_ne. intros ->. by eapply Hother.
    + intros path Hpath. rewrite fmap_cons, elem_of_cons in Hpath.
      rewrite Hrest by tauto. apply lookup_insert_ne. intros ->. simpl in Hpath. tauto.
  - split; [done|]. exists 0%nat. simpl. split_and!; try done; try lia.
    + intros _. by exists e.
    + intros path d' _. by left.
  - split; [done|]. exists 0%nat. simpl. split_and!; try done; try lia.
    + intros _. by exists e.
    + intros path d' [= <- <-]. right. apply lookup_insert_eq.
    + intros [|i] path d' Hi; [lia|]. simpl. intros Hl.
      apply lookup_insert_ne. intros ->. by eapply Hother.
    + intros path Hpath. rewrite elem_of_cons in Hpath.
      apply lookup_insert_ne. intros ->. simpl in Hpath. tauto.
Qed.

Lemma write_outputs_sound (docs : list (str * Document)) (w : World) :
  (∀ p d w', disk p d w' = Stored) → fst (write_outputs disk docs w) = Ok 0%Z.
Proof.
  intros Hdisk. revert w. induction docs as [|[p d] docs IH]; intros w; [done|].
  cbn [write_outputs]. unfold write_text. rewrite Hdisk. apply IH.
Qed.

End Writes.

(** ** The run *)

Section Run.
Context `{StrCase}.
Variable html : Type.
Variable fetch_html : str → result html.
Variable BeautifulSoup : html → Soup.
Variable now : str.
Variable disk : str → Document → World → write_outcome.

Local Abbreviation run := (main html fetch_html BeautifulSoup now disk).
Local Abbreviation status := (exit_status html fetch_html BeautifulSoup now disk).
Local Abbreviation failing := (fatal html fetch_html BeautifulSoup).
Local Abbreviation extracting := (extracted html fetch_html BeautifulSoup).

Lemma main_cases (w : World) :
  (failing ∧ ∃ e, run w = (Raise e, mkdir DOCS_DIR (mkdir ROLES_DIR w)))
  ∨ (¬ failing
     ∧ ∃ classic_rows prod_rows,
         extracting classic_rows prod_rows
         ∧ run w
           = write_outputs disk (outputs (build_schema now classic_rows prod_rows))
               (mkdir DOCS_DIR (mkdir ROLES_DIR w))).
Proof.
  unfold main, fatal, extracted.
  destruct (fetch_html CLASSIC_URL) as [ch|e] eqn:Hc.
  2:{ left. split; [left; by exists e|by exists e]. }
  destruct (fetch_html PROD_URL) as [ph|e] eqn:Hp.
  2:{ left. split; [right; left; by exists e|by exists e]. }
  destruct (parse_classic (BeautifulSoup ch)) as [crows|e] eqn:Hpc.
  2:{ left. split; [right; right; left; by exists ch, e|by exists e]. }
  destruct (parse_prod (BeautifulSoup ph)) as [prows|e] eqn:Hpp.
  2:{ left. split; [right; right; right; by exists ph, e|by exists e]. }
  right. split.
  - intros [[e He]|[[e He]|[(ch' & e & Hch & He)|(ph' & e & Hph & He)]]]; try done.
    + injection Hch as <-. congruence.
    + injection Hph as <-. congruence.
  - exists crows, prows. split; [by exists ch, ph|done].
Qed.

Lemma extracted_unique (c c' : list ClassicRow.t) (p p' : list ProdRow.t) :
  extracting c p → extracting c' p' → c = c' ∧ p = p'.
Proof.
  intros (ch & ph & Hc & Hp & Hpc & Hpp) (ch' & ph' & Hc' & Hp' & Hpc' & Hpp').
  rewrite Hc in Hc'. injection Hc' as <-. rewrite Hp in Hp'. injection Hp' as <-.
  rewrite Hpc in Hpc'. injection Hpc' as <-. rewrite Hpp in Hpp'. by injection Hpp' as <-.
Qed.

Lemma failing_not_extracting (c : list ClassicRow.t) (p : list ProdRow.t) :
  failing → ¬ extracting c p.
Proof.
  intros Hf (ch & ph & Hc & Hp & Hpc & Hpp). unfold fatal in Hf.
  destruct Hf as [[e He]|[[e He]|[(ch' & e & Hch & He)|(ph' & e & Hph & He)]]];
    congruence.
Qed.

Lemma failing_run (w : World) :
  failing →
  (∃ e, fst (run w) = Raise e)
  ∧ snd (run w) = mkdir DOCS_DIR (mkdir ROLES_DIR w).
Proof.
  intros Hf. destruct (main_cases w) as [[_ [e ->]]|[Hnot _]]; [|done].
  split; [by exists e|done].
Qed.

Lemma extracting_run (w : World) (c : list ClassicRow.t) (p : list ProdRow.t) :
  extracting c p →
  run w = write_outputs disk (outputs (build_schema now c p))
            (mkdir DOCS_DIR (mkdir ROLES_DIR w)).
Proof.
  intros Hex. destruct (main_cases w) as [[Hf _]|[_ (c' & p' & Hex' & ->)]].
  - by destruct (failing_not_extracting c p).
  - by destruct (extracted_unique _ _ _ _ Hex Hex') as [<- <-].
Qed.

(** What the writes of a run after extraction leave. *)
Lemma extracting_run_writes (w : World) (c : list ClassicRow.t) (p : list ProdRow.t) :
  extracting c p →
  dirs (snd (run w)) = {[DOCS_DIR]} ∪ ({[ROLES_DIR]} ∪ dirs w)
  ∧ ∃ n,
      (n ≤ 4)%nat
      ∧ (fst (run w) = Ok 0%Z ↔ n = 4%nat)
      ∧ ((n < 4)%nat → ∃ e, fst (run w) = Raise e)
      ∧ (∀ i path d, (i < n)%nat → outputs (build_schema now c p) !! i = Some (path, d) →
           files (snd (run w)) !! path = Some (Complete d))
      ∧ (∀ path d, outputs (build_schema now c p) !! n = Some (path, d) →
           files (snd (run w)) !! path = files w !! path
           ∨ files (snd (run w)) !! path = Some Damaged)
      ∧ (∀ i path d, (n < i)%nat → outputs (build_schema now c p) !! i = Some (path, d) →
           files (snd (run w)) !! path = files w !! path)
      ∧ (∀ path, path ∉ [JAMF_ROLES; CLASSIC_ROLES; PROD_ROLES; PRIV_CATEGORIES] →
           files (snd (run w)) !! path = files w !! path).
Proof.
  intros Hex. rewrite (extracting_run w c p Hex).
  apply (write_outputs_spec disk (outputs (build_schema now c p))
           (mkdir DOCS_DIR (mkdir ROLES_DIR w))).
  apply NoDup_roles_files.
Qed.

Lemma successful_run (w : World) :
  fst (run w) = Ok 0%Z →
  ∃ c p, extracting c p
         ∧ files (snd (run w)) = written (build_schema now c p) (files w).
Proof.
  intros Hok. destruct (main_cases w) as [[_ [e Hw]]|[_ (c & p & Hex & _)]].
  { rewrite Hw in Hok. done. }
  exists c, p. split; [done|].
  destruct (extracting_run_writes w c p Hex)
    as (_ & n & _ & Hn & _ & Hdone & _ & _ & Hrest).
  apply Hn in Hok. subst n.
  destruct (written_lookup (build_schema now c p) (files w)) as (H1 & H2 & H3 & H4 & Hw).
  apply map_eq. intros path.
  destruct (decide (path ∈ [JAMF_ROLES; CLASSIC_ROLES; PROD_ROLES; PRIV_CATEGORIES]))
    as [Hin|Hout]; [|by rewrite Hrest, Hw].
  rewrite !elem_of_cons, elem_of_nil in Hin.
  destruct Hin as [->|[->|[->|[->|[]]]]].
  - rewrite H1. apply (Hdone 0%nat); [lia|done].
  - rewrite H2. apply (Hdone 1%nat); [lia|done].
  - rewrite H3. apply (Hdone 2%nat); [lia|done].
  - rewrite H4. apply (Hdone 3%nat); [lia|done].
Qed.

Lemma sound_run (w : World) (c : list ClassicRow.t) (p : list ProdRow.t) :
  (∀ path d w', disk path d w' = Stored) → extracting c p → fst (run w) = Ok 0%Z.
Proof.
  intros Hdisk Hex. rewrite (extracting_run w c p Hex). by apply write_outputs_sound.
Qed.


End Run.

Section RunExamples.
#[local] Existing Instance ascii_case.



End RunExamples.

(** * Further properties of the code *)

(** ** The column resolver returns the first match *)

Lemma idx_from_spec (i : Z) (key : str) (headers : list str) :
  (idx_from i key headers = (-1)%Z ∧ ∀ h, h ∈ headers → ¬ substring key h)
  ∨ ∃ n h,
      idx_from i key headers = (i + Z.of_nat n)%Z
      ∧ headers !! n = Some h
      ∧ substring key h
      ∧ ∀ j h', (j < n)%nat → headers !! j = Some h' → ¬ substring key h'.
Proof.
  revert i. induction headers as [|h0 headers IH]; intros i; simpl.
  { left. split; [done|]. by intros h ?%not_elem_of_nil. }
  destruct (contains key h0) eqn:Hc.
  - right. exists 0%nat, h0. split_and!; [lia|done|by apply contains_spec|].
    intros j h' Hj. lia.
  - assert (¬ substring key h0) as Hn.
    { intros Hs%contains_spec. congruence. }
    destruct (IH (i + 1)%Z) as [[-> Hall]|(n & h & -> & Hn' & Hs & Hfirst)].
    + left. split; [done|]. intros h [->|Hh]%elem_of_cons; [done|by apply Hall].
    + right. exists (S n), h. split_and!; [lia|done|done|].
      intros [|j] h' Hj; simpl; [by intros [= <-]|]. apply Hfirst. lia.
Qed.

Section FirstMatch.
Context `{StrCase}.

(** X1.  [idx_contains] returns -1 exactly when no header label contains the
    lower-cased key, and otherwise the position of the first label that
    contains it, which lies within the labels. *)
Theorem idx_contains_first_match (headers : list str) (key : str) :
  (idx_contains headers key = (-1)%Z
   ∧ ∀ h, h ∈ headers → ¬ substring (lower key) h)
  ∨ ∃ n h,
      idx_contains headers key = Z.of_nat n
      ∧ (n < length headers)%nat
      ∧ headers !! n = Some h
      ∧ substring (lower key) h
      ∧ ∀ j h', (j < n)%nat → headers !! j = Some h' → ¬ substring (lower key) h'.
Proof.
  unfold idx_contains.
  destruct (idx_from_spec 0 (lower key) headers)
    as [[Hi Hall]|(n & h & Hi & Hn & Hs & Hfirst)].
  - left. by split.
  - right. exists n, h. split_and!; try done. by eapply lookup_lt_Some.
Qed.

(** X2.  A parser either returns rows, and then some table of the document
    qualifies for its required headers, or raises the table-not-found error,
    and then no table qualifies; it raises nothing else, in particular no
    index error on any row. *)
Theorem parsers_raise_only_table_not_found (soup : Soup) :
  ((parse_classic soup = Raise (TableNotFound Classic)
    ∧ ∀ t, t ∈ soup → ¬ qualifies CLASSIC_HEADERS t)
   ∨ (∃ out t, parse_classic soup = Ok out ∧ t ∈ soup ∧ qualifies CLASSIC_HEADERS t))
  ∧ ((parse_prod soup = Raise (TableNotFound Prod)
      ∧ ∀ t, t ∈ soup → ¬ qualifies PROD_HEADERS t)
     ∨ (∃ out t, parse_prod soup = Ok out ∧ t ∈ soup ∧ qualifies PROD_HEADERS t)).
Proof.
  split.
  - destruct (parse_classic_cases soup) as [[Hf ->]|(headers & table & out & Hf & ->)].
    + left. split; [done|]. by apply find_best_table_none.
    + right. exists out, table. split; [done|].
      pose proof (find_best_table_spec soup CLASSIC_HEADERS) as Hs. rewrite Hf in Hs.
      destruct Hs as (i & hr & Hi & _ & _ & Hq & _).
      split; [by eapply list_elem_of_lookup_2|done].
  - destruct (parse_prod_cases soup) as [[Hf ->]|(headers & table & out & Hf & ->)].
    + left. split; [done|]. by apply find_best_table_none.
    + right. exists out, table. split; [done|].
      pose proof (find_best_table_spec soup PROD_HEADERS) as Hs. rewrite Hf in Hs.
      destruct Hs as (i & hr & Hi & _ & _ & Hq & _).
      split; [by eapply list_elem_of_lookup_2|done].
Qed.

End FirstMatch.

(** ** Where the rows of a parser come from *)

Section Origin.
Context `{StrCase}.

Lemma parse_classic_origin (soup : Soup) (out : list ClassicRow.t) (r : ClassicRow.t) :
  parse_classic soup = Ok out → r ∈ out →
  ∃ headers table tr,
    find_best_table soup CLASSIC_HEADERS = Some (headers, table)
    ∧ tr ∈ table
    ∧ emitted (classic_row (idx_contains headers (lit "endpoint"))
                 (idx_contains headers (lit "operation"))
                 (idx_contains headers (lit "required")) tr) = Some r.
Proof.
  intros Hout Hr.
  destruct (parse_classic_cases soup) as [[_ Hraise]|(headers & table & out' & Hf & _)];
    [congruence|].
  destruct (parse_classic_located _ _ _ Hf) as [_ Hparse].
  rewrite Hparse in Hout. injection Hout as <-.
  rewrite dedup_first_occurrences in Hr by apply _.
  apply elem_of_firsts in Hr as [Hr _].
  apply list_elem_of_omap in Hr as (tr & Htr & Hemit).
  by exists headers, table, tr.
Qed.

Lemma parse_prod_origin (soup : Soup) (out : list ProdRow.t) (r : ProdRow.t) :
  parse_prod soup = Ok out → r ∈ out →
  ∃ headers table tr,
    find_best_table soup PROD_HEADERS = Some (headers, table)
    ∧ tr ∈ table
    ∧ emitted (prod_row (idx_contains headers (lit "endpoint"))
                 (idx_contains headers (lit "operation"))
                 (idx_contains headers (lit "privilege"))
                 (idx_contains headers (lit "deprecation")) tr) = Some r.
Proof.
  intros Hout Hr.
  destruct (parse_prod_cases soup) as [[_ Hraise]|(headers & table & out' & Hf & _)];
    [congruence|].
  destruct (parse_prod_located _ _ _ Hf) as [_ Hparse].
  rewrite Hparse in Hout. injection Hout as <-.
  rewrite dedup_first_occurrences in Hr by apply _.
  apply elem_of_firsts in Hr as [Hr _].
  apply list_elem_of_omap in Hr as (tr & Htr & Hemit).
  by exists headers, table, tr.
Qed.

Lemma normalized_cell (cells : list str) (n : nat) (c : str) :
  map clean cells !! n = Some c → clean c = c.
Proof.
  intros (text & -> & _)%list_lookup_fmap_Some. apply clean_idempotent.
Qed.

Lemma clean_NA : clean NA = NA.
Proof. reflexivity. Qed.

(** X3.  Every row a parser returns has a non-empty endpoint and a non-empty
    operation; its endpoint and its privileges text are normalized (the
    normalizer leaves them as they are) and its operation is the upper case
    of a normalized text.  A pro row has moreover a non-empty, normalized
    deprecation text. *)
Theorem parsed_rows_are_normalized (soup : Soup) :
  (∀ out r, parse_classic soup = Ok out → r ∈ out →
     ClassicRow.endpoint r ≠ []
     ∧ ClassicRow.operation r ≠ []
     ∧ clean (ClassicRow.endpoint r) = ClassicRow.endpoint r
     ∧ clean (ClassicRow.required_privileges r) = ClassicRow.required_privileges r
     ∧ ∃ o, clean o = o ∧ ClassicRow.operation r = upper o)
  ∧ (∀ out r, parse_prod soup = Ok out → r ∈ out →
       ProdRow.endpoint r ≠ []
       ∧ ProdRow.operation r ≠ []
       ∧ ProdRow.deprecation_date r ≠ []
       ∧ clean (ProdRow.endpoint r) = ProdRow.endpoint r
       ∧ clean (ProdRow.privilege_requirements r) = ProdRow.privilege_requirements r
       ∧ clean (ProdRow.deprecation_date r) = ProdRow.deprecation_date r
       ∧ ∃ o, clean o = o ∧ ProdRow.operation r = upper o).
Proof.
  split.
  - intros out r Hout Hr.
    destruct (parse_classic_origin _ _ _ Hout Hr) as (headers & table & tr & Hf & _ & Hemit).
    destruct (classic_resolves _ _ _ Hf) as (He & Ho & Hp).
    destruct (classic_row_skips _ _ _ tr He Ho Hp) as (_ & Hnone & Hskip & Hcells).
    destruct (Hcells r Hemit) as (o & Hle & Hlo & Hop & Hlp).
    assert (tds tr ≠ []) as Htds.
    { intros Ht. specialize (Hnone Ht). congruence. }
    specialize (Hskip Htds).
    assert (ClassicRow.endpoint r ≠ []) as Hne.
    { intros Hnil. rewrite Hnil in Hle.
      rewrite (proj2 Hskip) in Hemit; [done|]. right. by left. }
    assert (o ≠ []) as Hno.
    { intros ->. rewrite (proj2 Hskip) in Hemit; [done|]. right. by right. }
    split_and!; [done| |by eapply normalized_cell..|].
    + rewrite Hop. by intros ?%upper_nil.
    + exists o. split; [by eapply normalized_cell|done].
  - intros out r Hout Hr.
    destruct (parse_prod_origin _ _ _ Hout Hr) as (headers & table & tr & Hf & _ & Hemit).
    destruct (prod_resolves _ _ _ Hf) as (He & Ho & Hp & Hd).
    destruct (prod_row_skips _ _ _ _ tr He Ho Hp Hd) as (_ & Hnone & Hskip & Hcells).
    destruct (Hcells r Hemit) as (o & d & Hle & Hlo & Hop & Hlp & Hld & Hdate).
    assert (tds tr ≠ []) as Htds.
    { intros Ht. specialize (Hnone Ht). congruence. }
    specialize (Hskip Htds).
    assert (ProdRow.endpoint r ≠ []) as Hne.
    { intros Hnil. rewrite Hnil in Hle.
      rewrite (proj2 Hskip) in Hemit; [done|]. right. by left. }
    assert (o ≠ []) as Hno.
    { intros ->. rewrite (proj2 Hskip) in Hemit; [done|]. right. by right. }
    split_and!; [done| | |by eapply normalized_cell..| |].
    + rewrite Hop. by intros ?%upper_nil.
    + rewrite Hdate. by case_bool_decide.
    + rewrite Hdate. case_bool_decide; [apply clean_NA|by eapply normalized_cell].
    + exists o. split; [by eapply normalized_cell|done].
Qed.

End Origin.

Section OriginExamples.
#[local] Existing Instance ascii_case.

Lemma parsed_rows_are_normalized_witness :
  parse_prod prod_soup = Ok prod_out
  ∧ ProdRow.mk (lit "/v1/a") (lit "GET") (lit "Read - A") (lit "N/A") ∈ prod_out
  ∧ ProdRow.deprecation_date
      (ProdRow.mk (lit "/v1/a") (lit "GET") (lit "Read - A") (lit "N/A")) ≠ [].
Proof.
  assert (ProdRow.mk (lit "/v1/a") (lit "GET") (lit "Read - A") (lit "N/A") ∈ prod_out)
    as Hin by (unfold prod_out; apply list_elem_of_here).
  split; [reflexivity|]. split; [exact Hin|].
  destruct (parsed_rows_are_normalized prod_soup) as [_ Hprod].
  destruct (Hprod prod_out _ eq_refl Hin) as (_ & _ & Hdate & _).
  exact Hdate.
Defined.

End OriginExamples.

(** ** Documents made of parts *)

Lemma firsts_NoDup_id {A} `{EqDecision A} (earlier l : list A) :
  NoDup l → (∀ x, x ∈ l → x ∉ earlier) → firsts earlier l = l.
Proof.
  revert earlier. induction l as [|x l IH]; intros e Hnd Hfresh; [done|].
  apply NoDup_cons in Hnd as [Hx Hnd]. simpl.
  rewrite decide_False by (apply Hfresh; by left).
  f_equal. apply IH; [done|]. intros y Hy.
  rewrite elem_of_app, list_elem_of_singleton. intros [He| ->]; [|done].
  apply (Hfresh y); [by right|done].
Qed.

Lemma first_occurrences_NoDup {A} `{EqDecision A} (l : list A) :
  NoDup l → first_occurrences l = l.
Proof.
  intros Hnd. apply firsts_NoDup_id; [done|]. intros x _. apply not_elem_of_nil.
Qed.

Section Parts.
Context `{StrCase}.

Lemma find_best_table_app (s1 s2 : Soup) (required_headers : list str) :
  find_best_table (s1 ++ s2) required_headers
  = match find_best_table s1 required_headers with
    | Some found => Some found
    | None => find_best_table s2 required_headers
    end.
Proof.
  induction s1 as [|t s1 IH]; [done|].
  rewrite <-app_comm_cons.
  destruct (find_best_table_cons t (s1 ++ s2) required_headers)
    as [(Hq & hr & Hhd & ->)|(Hnq & ->)];
    destruct (find_best_table_cons t s1 required_headers)
      as [(Hq' & hr' & Hhd' & ->)|(Hnq' & ->)]; try done.
  rewrite Hhd in Hhd'. by injection Hhd' as <-.
Qed.

Lemma find_best_table_alone (soup : Soup) (required_headers headers : list str)
    (table : Table) :
  find_best_table soup required_headers = Some (headers, table) →
  find_best_table [table] required_headers = Some (headers, table).
Proof.
  intros Hf. pose proof (find_best_table_spec soup required_headers) as Hs.
  rewrite Hf in Hs. destruct Hs as (i & hr & _ & Hhd & -> & Hq & _).
  destruct (find_best_table_cons table [] required_headers)
    as [(_ & hr' & Hhd' & ->)|(Hnq & _)]; [|done].
  rewrite Hhd in Hhd'. by injection Hhd' as <-.
Qed.

(** X4.  The locator searches a document made of two parts in the first part
    and, only when it finds nothing there, in the second; and what a parser
    returns depends on the located table alone: it is what the parser returns
    for the document that holds just this table. *)
Theorem parsers_read_the_located_table_only (s1 s2 : Soup) (required_headers : list str) :
  find_best_table (s1 ++ s2) required_headers
  = match find_best_table s1 required_headers with
    | Some found => Some found
    | None => find_best_table s2 required_headers
    end
  ∧ (∀ soup headers table,
       find_best_table soup CLASSIC_HEADERS = Some (headers, table) →
       parse_classic soup = parse_classic [table])
  ∧ (∀ soup headers table,
       find_best_table soup PROD_HEADERS = Some (headers, table) →
       parse_prod soup = parse_prod [table]).
Proof.
  split_and!.
  - apply find_best_table_app.
  - intros soup headers table Hf. unfold parse_classic.
    by rewrite Hf, (find_best_table_alone _ _ _ _ Hf).
  - intros soup headers table Hf. unfold parse_prod.
    by rewrite Hf, (find_best_table_alone _ _ _ _ Hf).
Qed.

Lemma length_omap_filter {A B} (f : A → option B) (P : A → Prop)
    `{∀ x, Decision (P x)} (l : list A) :
  (∀ x y, f x = Some y → P x) →
  (length (omap f l) ≤ length (filter P l))%nat.
Proof.
  intros Hf. induction l as [|x l IH]; [done|].
  rewrite filter_cons.
  change (omap f (x :: l))
    with (match f x with Some y => y :: omap f l | None => omap f l end).
  destruct (f x) as [y|] eqn:Hx.
  - rewrite decide_True by by eapply Hf. simpl. lia.
  - case_decide; simpl; lia.
Qed.

Lemma classic_rows_bound (headers : list str) (table : Table) (soup : Soup) :
  find_best_table soup CLASSIC_HEADERS = Some (headers, table) →
  ∃ out, parse_classic soup = Ok out
         ∧ (length out ≤ length (filter (λ tr, tds tr ≠ []) table))%nat.
Proof.
  intros Hf. destruct (parse_classic_located _ _ _ Hf) as [_ Hparse].
  destruct (classic_resolves _ _ _ Hf) as (He & Ho & Hp).
  eexists. split; [exact Hparse|].
  rewrite dedup_first_occurrences by apply _.
  etrans; [apply sublist_length, sublist_firsts|].
  apply length_omap_filter. intros tr r Hemit Htds.
  destruct (classic_row_skips _ _ _ tr He Ho Hp) as (_ & Hnone & _).
  rewrite (Hnone Htds) in Hemit. done.
Qed.

Lemma prod_rows_bound (headers : list str) (table : Table) (soup : Soup) :
  find_best_table soup PROD_HEADERS = Some (headers, table) →
  ∃ out, parse_prod soup = Ok out
         ∧ (length out ≤ length (filter (λ tr, tds tr ≠ []) table))%nat.
Proof.
  intros Hf. destruct (parse_prod_located _ _ _ Hf) as [_ Hparse].
  destruct (prod_resolves _ _ _ Hf) as (He & Ho & Hp & Hd).
  eexists. split; [exact Hparse|].
  rewrite dedup_first_occurrences by apply _.
  etrans; [apply sublist_length, sublist_firsts|].
  apply length_omap_filter. intros tr r Hemit Htds.
  destruct (prod_row_skips _ _ _ _ tr He Ho Hp Hd) as (_ & Hnone & _).
  rewrite (Hnone Htds) in Hemit. done.
Qed.

Lemma filter_data_nil (table : Table) :
  Forall (λ tr, tds tr = []) table → filter (λ tr, tds tr ≠ []) table = [].
Proof.
  induction 1 as [|tr table Htr _ IH]; [done|].
  rewrite filter_cons, IH. by rewrite decide_False by (by intros ?).
Qed.

(** X5.  A parser returns at most as many rows as the located table has rows
    with data cells; in particular a located table none of whose rows has a
    data cell gives the empty list of rows, not an error. *)
Theorem parsers_return_at_most_the_data_rows (soup : Soup) :
  (∀ headers table,
     find_best_table soup CLASSIC_HEADERS = Some (headers, table) →
     ∃ out, parse_classic soup = Ok out
            ∧ (length out ≤ length (filter (λ tr, tds tr ≠ []) table))%nat
            ∧ (Forall (λ tr, tds tr = []) table → out = []))
  ∧ (∀ headers table,
       find_best_table soup PROD_HEADERS = Some (headers, table) →
       ∃ out, parse_prod soup = Ok out
              ∧ (length out ≤ length (filter (λ tr, tds tr ≠ []) table))%nat
              ∧ (Forall (λ tr, tds tr = []) table → out = [])).
Proof.
  split.
  - intros headers table Hf.
    destruct (classic_rows_bound _ _ _ Hf) as (out & Hout & Hlen).
    exists out. split_and!; [done..|].
    intros Hnone. rewrite (filter_data_nil _ Hnone) in Hlen.
    destruct out; [done|simpl in Hlen; lia].
  - intros headers table Hf.
    destruct (prod_rows_bound _ _ _ Hf) as (out & Hout & Hlen).
    exists out. split_and!; [done..|].
    intros Hnone. rewrite (filter_data_nil _ Hnone) in Hlen.
    destruct out; [done|simpl in Hlen; lia].
Qed.

(** X6.  The deduplication loop of a parser changes nothing in rows that are
    already without repeats, so that running it again on its own result
    changes nothing, and it never returns more rows than it was given. *)
Theorem dedup_is_idempotent (classic : list ClassicRow.t) (prod : list ProdRow.t) :
  dedup classic_key ∅ [] (dedup classic_key ∅ [] classic) = dedup classic_key ∅ [] classic
  ∧ dedup prod_key ∅ [] (dedup prod_key ∅ [] prod) = dedup prod_key ∅ [] prod
  ∧ (length (dedup classic_key ∅ [] classic) ≤ length classic)%nat
  ∧ (length (dedup prod_key ∅ [] prod) ≤ length prod)%nat
  ∧ (dedup classic_key ∅ [] classic = classic ↔ NoDup classic)
  ∧ (dedup prod_key ∅ [] prod = prod ↔ NoDup prod).
Proof.
  rewrite !dedup_first_occurrences by apply _.
  split_and!.
  - apply first_occurrences_NoDup, NoDup_firsts.
  - apply first_occurrences_NoDup, NoDup_firsts.
  - apply sublist_length, sublist_firsts.
  - apply sublist_length, sublist_firsts.
  - split; [intros <-; apply NoDup_firsts|apply first_occurrences_NoDup].
  - split; [intros <-; apply NoDup_firsts|apply first_occurrences_NoDup].
Qed.

End Parts.

Section PartsExamples.
#[local] Existing Instance ascii_case.

Lemma parsers_read_the_located_table_only_witness :
  match find_best_table prod_soup PROD_HEADERS with
  | Some (headers, table) => parse_prod prod_soup = parse_prod [table]
  | None => False
  end.
Proof.
  destruct (parsers_read_the_located_table_only [] [] []) as (_ & _ & Hprod).
  destruct (find_best_table prod_soup PROD_HEADERS) as [[headers table]|] eqn:Hf.
  - exact (Hprod prod_soup headers table Hf).
  - discriminate Hf.
Defined.

End PartsExamples.

(** ** Trimming and the fragments of a privileges cell *)

Lemma elem_of_lstrip (s : str) (c : N) : c ∈ lstrip s → c ∈ s.
Proof.
  induction s as [|d s IH]; [done|]. simpl.
  destruct (isspace d); [|done]. intros Hc. right. by apply IH.
Qed.

Lemma elem_of_rstrip (s : str) (c : N) : c ∈ rstrip s → c ∈ s.
Proof.
  induction s as [|d s IH]; [done|]. rewrite rstrip_cons.
  case_bool_decide as Hr.
  - destruct (isspace d); [by intros ?%not_elem_of_nil|].
    intros ->%list_elem_of_singleton. by left.
  - intros [->|Hc]%elem_of_cons; [by left|]. right. by apply IH.
Qed.

Lemma elem_of_strip (s : str) (c : N) : c ∈ strip s → c ∈ s.
Proof. intros Hc. by apply elem_of_lstrip, elem_of_rstrip. Qed.

Lemma lstrip_head (s : str) (c : N) : head (lstrip s) = Some c → isspace c = false.
Proof.
  induction s as [|d s IH]; [done|]. simpl.
  destruct (isspace d) eqn:Hd; [done|]. simpl. by intros [= <-].
Qed.

Lemma rstrip_head (s : str) (c : N) : head (rstrip s) = Some c → head s = Some c.
Proof.
  destruct s as [|d s]; [done|]. rewrite rstrip_cons.
  case_bool_decide; [|done]. by destruct (isspace d).
Qed.

Lemma strip_head (s : str) (c : N) : head (strip s) = Some c → isspace c = false.
Proof. intros Hc%rstrip_head. by eapply lstrip_head. Qed.

Lemma strip_last (s : str) (c : N) : last (strip s) = Some c → isspace c = false.
Proof. apply rstrip_last, rstrip_idem. Qed.

Lemma lstrip_id (s : str) : (∀ c, head s = Some c → isspace c = false) → lstrip s = s.
Proof.
  destruct s as [|d s]; [done|]. simpl. intros Hd. by rewrite (Hd d eq_refl).
Qed.

Lemma strip_idem (s : str) : strip (strip s) = strip s.
Proof.
  unfold strip at 1. rewrite (lstrip_id (strip s)) by apply strip_head.
  apply rstrip_idem.
Qed.

Lemma rstrip_nonblank (s : str) (c : N) :
  head s = Some c → isspace c = false → rstrip s ≠ [].
Proof.
  destruct s as [|d s]; [done|]. simpl. intros [= ->] Hc.
  destruct (rstrip s); [by rewrite Hc|done].
Qed.

Lemma lstrip_nil (s : str) : lstrip s = [] ↔ Forall (λ c, isspace c = true) s.
Proof.
  induction s as [|d s IH]; [done|]. simpl.
  destruct (isspace d) eqn:Hd.
  - rewrite IH. split; [by constructor|]. by intros [_ ?]%Forall_cons.
  - split; [done|]. intros [? _]%Forall_cons. congruence.
Qed.

Lemma strip_nil (s : str) : strip s = [] ↔ Forall (λ c, isspace c = true) s.
Proof.
  rewrite <-lstrip_nil. unfold strip. split; [|by intros ->].
  intros Hr. destruct (lstrip s) as [|c g] eqn:Hg; [done|].
  destruct (rstrip_nonblank (c :: g) c eq_refl); [|done].
  apply (lstrip_head s). by rewrite Hg.
Qed.

Lemma split_on_app (sep : N) (s1 s2 : str) :
  split_on sep (s1 ++ sep :: s2) = split_on sep s1 ++ split_on sep s2.
Proof.
  induction s1 as [|c s1 IH]; simpl.
  { by rewrite N.eqb_refl. }
  destruct (c =? sep); [by rewrite IH|].
  rewrite IH. pose proof (split_on_nonempty sep s1) as Hne.
  by destruct (split_on sep s1).
Qed.

Lemma split_on_alone (sep : N) (s : str) : sep ∉ s → split_on sep s = [s].
Proof.
  induction s as [|c s IH]; [done|]. intros Hc. simpl.
  destruct (N.eqb_spec c sep) as [->|_]; [by destruct Hc; left|].
  rewrite IH; [done|]. intros ?. apply Hc. by right.
Qed.

Lemma split_privs_app (s1 s2 : str) :
  split_privs (s1 ++ COMMA :: s2) = split_privs s1 ++ split_privs s2.
Proof.
  unfold split_privs. by rewrite split_on_app, filter_app, map_app.
Qed.

Lemma fragments_blank (l : list str) :
  map strip (filter (λ p, strip p ≠ []) l) = [] ↔ Forall (λ f, strip f = []) l.
Proof.
  induction l as [|f l IH]; [done|]. rewrite filter_cons. case_decide as Hf.
  - split; [done|]. by intros [? _]%Forall_cons.
  - rewrite IH. split; [by constructor|].
    by intros [_ ?]%Forall_cons.
Qed.

Lemma split_on_blank (s : str) :
  Forall (λ f, strip f = []) (split_on COMMA s)
  ↔ ∀ c, c ∈ s → c = COMMA ∨ isspace c = true.
Proof.
  induction s as [|c s IH]; simpl.
  { split; [by intros _ c ?%not_elem_of_nil|]. intros _. by constructor. }
  destruct (N.eqb_spec c COMMA) as [->|Hc].
  - rewrite Forall_cons, IH. split.
    + intros [_ Hall] d [->|Hd]%elem_of_cons; [by left|by apply Hall].
    + intros Hall. split; [done|]. intros d Hd. apply Hall. by right.
  - pose proof (split_on_nonempty COMMA s) as Hne.
    destruct (split_on COMMA s) as [|w ws]; [done|].
    rewrite Forall_cons in IH. rewrite Forall_cons.
    rewrite strip_nil, Forall_cons. rewrite strip_nil in IH. split.
    + intros [[Hws Hw] Hrest] d [->|Hd]%elem_of_cons; [by right|].
      by apply (proj1 IH).
    + intros Hall.
      destruct (Hall c) as [?|Hws]; [by left|done|].
      destruct (proj2 IH) as [Hw Hrest]; [|done].
      intros d Hd. apply Hall. by right.
Qed.

(** X7.  Every privilege that [build_schema] reads from a privileges text is
    non-empty, holds no comma and has no whitespace at either end; a text
    joined of two texts by a comma gives the privileges of the first followed
    by those of the second; a text without comma gives its trimmed self, or
    nothing when it is blank; and a text gives no privilege exactly when it
    consists of commas and whitespace only. *)
Theorem split_privs_fragments (s s1 s2 : str) :
  (∀ p, p ∈ split_privs s →
     p ≠ [] ∧ (COMMA ∉ p) ∧ strip p = p
     ∧ (∀ c, head p = Some c → isspace c = false)
     ∧ (∀ c, last p = Some c → isspace c = false))
  ∧ split_privs (s1 ++ COMMA :: s2) = split_privs s1 ++ split_privs s2
  ∧ (COMMA ∉ s → split_privs s = if bool_decide (strip s = []) then [] else [strip s])
  ∧ (split_privs s = [] ↔ ∀ c, c ∈ s → c = COMMA ∨ isspace c = true).
Proof.
  split_and!.
  - intros p (Hne & f & Hf & ->)%elem_of_split_privs. split_and!.
    + done.
    + intros Hc%elem_of_strip. by apply (split_on_no_sep COMMA s f).
    + apply strip_idem.
    + apply strip_head.
    + apply strip_last.
  - apply split_privs_app.
  - intros Hc. unfold split_privs. rewrite split_on_alone by done.
    rewrite filter_cons, filter_nil.
    case_bool_decide as Hs.
    + by rewrite decide_False by (by intros ?).
    + by rewrite decide_True.
  - unfold split_privs. by rewrite fragments_blank, split_on_blank.
Qed.

Lemma split_privs_fragments_witness :
  split_privs (lit "Read - A , ") = [lit "Read - A"].
Proof.
  destruct (split_privs_fragments (lit " ") (lit "Read - A ") (lit " ")) as (_ & Happ & Halone & _).
  change (lit "Read - A , ") with (lit "Read - A " ++ COMMA :: lit " ").
  rewrite Happ.
  destruct (split_privs_fragments (lit "Read - A ") [] []) as (_ & _ & Ha & _).
  rewrite Ha, Halone.
  - reflexivity.
  - vm_compute. intros Hin. repeat (apply elem_of_cons in Hin as [Hin|Hin]; [discriminate Hin|]).
    by apply not_elem_of_nil in Hin.
  - vm_compute. intros Hin. repeat (apply elem_of_cons in Hin as [Hin|Hin]; [discriminate Hin|]).
    by apply not_elem_of_nil in Hin.
Defined.

(** ** The catalogue of the schema *)

Lemma privilege_shape (s p : str) :
  p ∈ split_privs s →
  (categorize p = (lit "Other", p) ∧ p ≠ [])
  ∨ ∃ c a r, p = (c :: a) ++ SEP ++ r
             ∧ isspace c = false
             ∧ r ≠ []
             ∧ categorize p = (strip (c :: a), r).
Proof.
  intros (Hne & f & Hf & ->)%elem_of_split_privs.
  destruct (contains SEP (strip f)) eqn:Hc.
  2:{ left. split; [by apply categorize_without_separator|done]. }
  right. destruct (categorize_with_separator _ Hc) as (a & r & Hp & _ & Hcat).
  destruct a as [|c a].
  { pose proof (strip_head f SPACE) as Hh. rewrite Hp in Hh. by specialize (Hh eq_refl). }
  exists c, a, r. split_and!; [done| | |done].
  - apply (strip_head f). by rewrite Hp.
  - intros ->. pose proof (strip_last f SPACE) as Hl. rewrite Hp in Hl.
    change ((c :: a) ++ SEP ++ []) with ((c :: a) ++ lit " -" ++ [SPACE]) in Hl.
    rewrite app_assoc, last_snoc in Hl. by specialize (Hl eq_refl).
Qed.

Lemma strip_nonblank (c : N) (a : str) : isspace c = false → strip (c :: a) ≠ [].
Proof.
  intros Hc. unfold strip. simpl lstrip. rewrite Hc.
  by apply (rstrip_nonblank _ c).
Qed.

Section Catalogue.
Context `{StrCase}.

Lemma privilege_is_listed (now : str) (classic_rows : list ClassicRow.t)
    (prod_rows : list ProdRow.t) (p : str) :
  let schema := build_schema now classic_rows prod_rows in
  p ∈ Schema.all_privileges schema →
  ∃ l, Schema.privilege_categories schema !! (categorize p).1 = Some l
       ∧ (categorize p).2 ∈ l.
Proof.
  intros schema Hp. unfold schema. rewrite categories_of_schema. fold schema.
  assert ((categorize p).2 ∈ first_occurrences
            (resources_in (categorize p).1 (Schema.all_privileges schema))) as Hin.
  { apply elem_of_firsts. split; [|apply not_elem_of_nil].
    apply elem_of_resources_in. exists p. split; [done|]. by destruct (categorize p). }
  destruct (first_occurrences _) as [|x l]; [by apply not_elem_of_nil in Hin|].
  by exists (x :: l).
Qed.

Lemma listed_comes_from_privilege (now : str) (classic_rows : list ClassicRow.t)
    (prod_rows : list ProdRow.t) (action : str) (l : list str) (r : str) :
  let schema := build_schema now classic_rows prod_rows in
  Schema.privilege_categories schema !! action = Some l → r ∈ l →
  ∃ p, p ∈ Schema.all_privileges schema ∧ categorize p = (action, r).
Proof.
  intros schema Hl Hr. apply category_listing in Hl. fold schema in Hl. subst l.
  apply elem_of_firsts in Hr as [Hr _]. by apply elem_of_resources_in.
Qed.

Lemma all_privileges_split (now : str) (classic_rows : list ClassicRow.t)
    (prod_rows : list ProdRow.t) (p : str) :
  p ∈ Schema.all_privileges (build_schema now classic_rows prod_rows) →
  ∃ s, p ∈ split_privs s.
Proof.
  rewrite elem_of_all_privileges, elem_of_privileges_seen.
  intros [(r & _ & Hp)|(r & _ & Hp)]; by eexists.
Qed.

(** X8.  The endpoint objects and the catalogue of a schema agree: every
    privilege of every endpoint object, classic or pro, is in [all_privileges]
    and its resource is listed in its category, and every privilege of
    [all_privileges] is a privilege of some endpoint object.  The endpoint
    objects stand for the rows one to one, in the order of the rows, with the
    endpoint and the operation of the row. *)
Theorem endpoint_privileges_are_catalogued (now : str) (classic_rows : list ClassicRow.t)
    (prod_rows : list ProdRow.t) :
  let schema := build_schema now classic_rows prod_rows in
  let endpoints :=
    ApiSection.endpoints (Schema.classic_api schema)
    ++ ApiSection.endpoints (Schema.jamf_pro_api schema) in
  (∀ e p, e ∈ endpoints → p ∈ Endpoint.privileges e →
     p ∈ Schema.all_privileges schema
     ∧ ∃ l, Schema.privilege_categories schema !! (categorize p).1 = Some l
            ∧ (categorize p).2 ∈ l)
  ∧ (∀ p, p ∈ Schema.all_privileges schema →
       ∃ e, e ∈ endpoints ∧ p ∈ Endpoint.privileges e)
  ∧ (λ e, (Endpoint.endpoint e, Endpoint.operation e))
      <$> ApiSection.endpoints (Schema.classic_api schema)
    = (λ r, (ClassicRow.endpoint r, ClassicRow.operation r)) <$> classic_rows
  ∧ (λ e, (Endpoint.endpoint e, Endpoint.operation e))
      <$> ApiSection.endpoints (Schema.jamf_pro_api schema)
    = (λ r, (ProdRow.endpoint r, ProdRow.operation r)) <$> prod_rows.
Proof.
  intros schema endpoints.
  destruct (build_schema_fields now classic_rows prod_rows)
    as (_ & _ & _ & _ & Hc & Hp). fold schema in Hc, Hp.
  assert (∀ e p, e ∈ endpoints → p ∈ Endpoint.privileges e →
            p ∈ privileges_seen classic_rows prod_rows) as Hseen.
  { intros e p He Hpe. apply elem_of_privileges_seen.
    unfold endpoints in He. rewrite Hc, Hp in He.
    apply elem_of_app in He as [He|He];
      apply list_elem_of_fmap in He as (r & -> & Hr); [left|right]; by exists r. }
  split_and!.
  - intros e p He Hpe. specialize (Hseen e p He Hpe).
    apply (elem_of_all_privileges now) in Hseen. fold schema in Hseen.
    split; [done|]. by apply privilege_is_listed.
  - intros p Hpin. unfold schema in Hpin.
    apply elem_of_all_privileges, elem_of_privileges_seen in Hpin.
    unfold endpoints. rewrite Hc, Hp.
    destruct Hpin as [(r & Hr & Hpr)|(r & Hr & Hpr)].
    + exists (classic_endpoint r). split; [|done].
      apply elem_of_app. left. by apply (list_elem_of_fmap_2 classic_endpoint).
    + exists (prod_endpoint r). split; [|done].
      apply elem_of_app. right. by apply (list_elem_of_fmap_2 prod_endpoint).
  - rewrite Hc. by rewrite <-list_fmap_compose.
  - rewrite Hp. by rewrite <-list_fmap_compose.
Qed.

(** X9.  In the category map of a schema no category name is empty, no
    category is without resources, and no resource is empty. *)
Theorem categories_are_never_empty (now : str) (classic_rows : list ClassicRow.t)
    (prod_rows : list ProdRow.t) (action : str) :
  match Schema.privilege_categories (build_schema now classic_rows prod_rows) !! action with
  | Some l => action ≠ [] ∧ l ≠ [] ∧ Forall (λ r, r ≠ []) l
  | None => True
  end.
Proof.
  destruct (Schema.privilege_categories _ !! action) as [l|] eqn:Hl; [|done].
  assert (∀ r, r ∈ l → action ≠ [] ∧ r ≠ []) as Hshape.
  { intros r Hr.
    destruct (listed_comes_from_privilege _ _ _ _ _ r Hl Hr) as (p & Hp & Hcat).
    destruct (all_privileges_split _ _ _ _ Hp) as (s & Hs).
    destruct (privilege_shape s p Hs) as [[Hcat' Hne]|(c & a & r' & _ & Hc & Hr' & Hcat')];
      rewrite Hcat in Hcat'; injection Hcat' as -> ->.
    - done.
    - split; [by apply strip_nonblank|done]. }
  split_and!.
  - pose proof Hl as Hl'. rewrite categories_of_schema in Hl'.
    destruct l as [|r l]; [by destruct (first_occurrences _)|].
    apply (Hshape r). by left.
  - revert Hl. rewrite categories_of_schema.
    destruct (first_occurrences _); [done|]. by intros [= <-].
  - apply Forall_forall. intros r Hr. by apply Hshape.
Qed.

(** X10.  The catalogue of a schema depends on the set of privilege strings
    of the rows only: two inputs with the same privilege strings, in whatever
    rows, order and number, give the same [all_privileges] and the same
    category map. *)
Theorem catalogue_depends_on_the_privileges_only (now now' : str)
    (classic_rows classic_rows' : list ClassicRow.t) (prod_rows prod_rows' : list ProdRow.t) :
  (∀ p, p ∈ privileges_seen classic_rows prod_rows
        ↔ p ∈ privileges_seen classic_rows' prod_rows') →
  Schema.all_privileges (build_schema now classic_rows prod_rows)
  = Schema.all_privileges (build_schema now' classic_rows' prod_rows')
  ∧ Schema.privilege_categories (build_schema now classic_rows prod_rows)
    = Schema.privilege_categories (build_schema now' classic_rows' prod_rows').
Proof.
  intros Hsame.
  destruct (build_schema_fields now classic_rows prod_rows) as (_ & _ & Ha & Hc & _).
  destruct (build_schema_fields now' classic_rows' prod_rows') as (_ & _ & Ha' & Hc' & _).
  assert (all_privs classic_rows prod_rows = all_privs classic_rows' prod_rows') as Heq.
  { apply set_eq. intros p. unfold all_privs. by rewrite !elem_of_list_to_set. }
  assert (Schema.all_privileges (build_schema now classic_rows prod_rows)
          = Schema.all_privileges (build_schema now' classic_rows' prod_rows')) as Hall.
  { by rewrite Ha, Ha', Heq. }
  split; [done|]. by rewrite Hc, Hc', Hall.
Qed.

End Catalogue.

Section CatalogueExamples.
#[local] Existing Instance ascii_case.

Lemma catalogue_depends_on_the_privileges_only_witness :
  Schema.all_privileges (build_schema [] unsorted_rows [])
  = Schema.all_privileges
      (build_schema (lit "later")
         [ClassicRow.mk (lit "/a") (lit "PUT") (lit "Read - Accounts")]
         [ProdRow.mk (lit "/b") (lit "GET") (lit "Read - Zones,Read - Accounts") NA]).
Proof.
  refine (proj1 (catalogue_depends_on_the_privileges_only [] (lit "later") unsorted_rows
            [ClassicRow.mk (lit "/a") (lit "PUT") (lit "Read - Accounts")] []
            [ProdRow.mk (lit "/b") (lit "GET") (lit "Read - Zones,Read - Accounts") NA] _)).
  intros p. vm_compute privileges_seen.
  rewrite !elem_of_cons, !elem_of_nil. tauto.
Defined.

End CatalogueExamples.

(** ** What a run leaves behind *)

Section Footprint.
Context `{StrCase}.
Variable html : Type.
Variable fetch_html : str → result html.
Variable BeautifulSoup : html → Soup.
Variable now : str.
Variable disk : str → Document → World → write_outcome.

Local Abbreviation run := (main html fetch_html BeautifulSoup now disk).
Local Abbreviation extracting := (extracted html fetch_html BeautifulSoup).



End Footprint.

Section FootprintExamples.
#[local] Existing Instance ascii_case.



End FootprintExamples.

(** ** What the normalizer keeps *)

Lemma filter_replace_nbsp (s : str) :
  filter (λ c, isspace c = false) (replace_nbsp s) = filter (λ c, isspace c = false) s.
Proof.
  induction s as [|c s IH]; [done|].
  cbn [replace_nbsp map]. fold (replace_nbsp s). rewrite !filter_cons, IH.
  destruct (N.eqb_spec c NBSP) as [->|_]; [|done].
  rewrite isspace_SPACE, isspace_NBSP. by rewrite !decide_False.
Qed.

Lemma filter_sub_ws (b : bool) (s : str) :
  filter (λ c, isspace c = false) (sub_ws b s) = filter (λ c, isspace c = false) s.
Proof.
  revert b. induction s as [|c s IH]; intros b; [done|].
  simpl. rewrite filter_cons. destruct (isspace c) eqn:Hc.
  - rewrite decide_False by done. destruct b; [apply IH|].
    rewrite filter_cons, isspace_SPACE. rewrite decide_False by done. apply IH.
  - rewrite filter_cons, Hc. by rewrite IH.
Qed.

Lemma filter_lstrip (s : str) :
  filter (λ c, isspace c = false) (lstrip s) = filter (λ c, isspace c = false) s.
Proof.
  induction s as [|c s IH]; [done|]. simpl. rewrite filter_cons.
  destruct (isspace c) eqn:Hc; [by rewrite decide_False|].
  by rewrite filter_cons, Hc.
Qed.

Lemma filter_rstrip (s : str) :
  filter (λ c, isspace c = false) (rstrip s) = filter (λ c, isspace c = false) s.
Proof.
  induction s as [|c s IH]; [done|]. rewrite rstrip_cons, filter_cons.
  case_bool_decide as Hr.
  - rewrite <-IH, Hr, filter_nil. destruct (isspace c) eqn:Hc.
    + by rewrite decide_False.
    + rewrite filter_cons, Hc, filter_nil. by rewrite decide_True.
  - by rewrite filter_cons, IH.
Qed.

Lemma length_sub_ws (b : bool) (s : str) : (length (sub_ws b s) ≤ length s)%nat.
Proof.
  revert b. induction s as [|c s IH]; intros b; [done|]. simpl.
  destruct (isspace c); [destruct b|]; simpl;
    [specialize (IH true)|specialize (IH true)|specialize (IH false)]; lia.
Qed.

Lemma length_lstrip (s : str) : (length (lstrip s) ≤ length s)%nat.
Proof.
  induction s as [|c s IH]; [done|]. simpl. destruct (isspace c); simpl; lia.
Qed.

Lemma length_rstrip (s : str) : (length (rstrip s) ≤ length s)%nat.
Proof.
  induction s as [|c s IH]; [done|]. rewrite rstrip_cons.
  case_bool_decide; [destruct (isspace c)|]; simpl; lia.
Qed.

Lemma filter_visible_nil (s : str) :
  filter (λ c, isspace c = false) s = [] ↔ Forall (λ c, isspace c = true) s.
Proof.
  induction s as [|c s IH]; [done|]. rewrite filter_cons, Forall_cons.
  destruct (isspace c) eqn:Hc.
  - rewrite decide_False by done. rewrite IH. tauto.
  - rewrite decide_True by done. split; [done|]. by intros [? _].
Qed.

(** X13.  The normalizer keeps the code points that are not whitespace, all
    of them and in their order; it never makes a text longer; and it returns
    the empty text exactly for the texts that hold whitespace only. *)
Theorem clean_keeps_the_visible_text (s : str) :
  filter (λ c, isspace c = false) (clean s) = filter (λ c, isspace c = false) s
  ∧ (length (clean s) ≤ length s)%nat
  ∧ (clean s = [] ↔ Forall (λ c, isspace c = true) s).
Proof.
  assert (filter (λ c, isspace c = false) (clean s)
          = filter (λ c, isspace c = false) s) as Hvis.
  { unfold clean, strip.
    by rewrite filter_rstrip, filter_lstrip, filter_sub_ws, filter_replace_nbsp. }
  split_and!; [done| |].
  - unfold clean, strip.
    pose proof (length_rstrip (lstrip (sub_ws false (replace_nbsp s)))).
    pose proof (length_lstrip (sub_ws false (replace_nbsp s))).
    pose proof (length_sub_ws false (replace_nbsp s)).
    assert (length (replace_nbsp s) = length s) by apply length_map.
    lia.
  - rewrite <-filter_visible_nil, <-Hvis. split; [by intros ->|].
    intros Hnil. destruct (clean s) as [|c t] eqn:Hc; [done|].
    pose proof (spaced_head (clean s) c (spaced_clean s)) as Hh.
    rewrite Hc in Hh. specialize (Hh eq_refl).
    rewrite filter_cons, decide_True in Hnil by done. done.
Qed.

(** ** Header matching and the case of ASCII letters *)

Ltac decide_comparisons :=
  repeat match goal with
  | |- context [N.leb ?a ?b] =>
      first [rewrite (proj2 (N.leb_le a b)) by lia
            |rewrite (proj2 (N.leb_gt a b)) by lia]
  | |- context [N.eqb ?a ?b] =>
      first [rewrite (proj2 (N.eqb_eq a b)) by lia
            |rewrite (proj2 (N.eqb_neq a b)) by lia]
  end.

Lemma ascii_lower_cases (c : N) :
  (0x41 ≤ c ≤ 0x5a ∧ ascii_lower c = c + 32) ∨ ((c < 0x41 ∨ 0x5a < c) ∧ ascii_lower c = c).
Proof.
  unfold ascii_lower.
  destruct (N.leb_spec 0x41 c), (N.leb_spec c 0x5a); simpl; [left|right..]; lia.
Qed.

Lemma isspace_ascii_lower (c : N) : isspace (ascii_lower c) = isspace c.
Proof.
  destruct (ascii_lower_cases c) as [[Hc ->]|[_ ->]]; [|done].
  unfold isspace. by decide_comparisons.
Qed.

Lemma ascii_lower_NBSP (c : N) : (ascii_lower c =? NBSP) = (c =? NBSP).
Proof.
  destruct (ascii_lower_cases c) as [[Hc ->]|[_ ->]]; [|done].
  unfold NBSP. by decide_comparisons.
Qed.

Lemma replace_nbsp_lower (s : str) :
  replace_nbsp (map ascii_lower s) = map ascii_lower (replace_nbsp s).
Proof.
  unfold replace_nbsp. rewrite !map_map. apply map_ext. intros c.
  rewrite ascii_lower_NBSP. by destruct (c =? NBSP).
Qed.

Lemma sub_ws_lower (b : bool) (s : str) :
  sub_ws b (map ascii_lower s) = map ascii_lower (sub_ws b s).
Proof.
  revert b. induction s as [|c s IH]; intros b; [done|].
  cbn [map sub_ws]. rewrite isspace_ascii_lower.
  destruct (isspace c); [destruct b|]; cbn [map]; by rewrite IH.
Qed.

Lemma lstrip_lower (s : str) : lstrip (map ascii_lower s) = map ascii_lower (lstrip s).
Proof.
  induction s as [|c s IH]; [done|].
  cbn [map lstrip]. rewrite isspace_ascii_lower. by destruct (isspace c).
Qed.

Lemma rstrip_lower (s : str) : rstrip (map ascii_lower s) = map ascii_lower (rstrip s).
Proof.
  induction s as [|c s IH]; [done|].
  cbn [map]. rewrite !rstrip_cons, IH, isspace_ascii_lower.
  destruct (rstrip s) as [|d r] eqn:Hr; cbn [map].
  - rewrite !bool_decide_eq_true_2 by done. by destruct (isspace c).
  - by rewrite !bool_decide_eq_false_2 by done.
Qed.

Lemma clean_lower (s : str) : clean (map ascii_lower s) = map ascii_lower (clean s).
Proof.
  unfold clean, strip.
  by rewrite replace_nbsp_lower, sub_ws_lower, lstrip_lower, rstrip_lower.
Qed.

Lemma elem_of_sub_ws (b : bool) (s : str) (c : N) :
  c ∈ sub_ws b s → c ∈ s ∨ c = SPACE.
Proof.
  revert b. induction s as [|d s IH]; intros b; simpl.
  { by intros ?%not_elem_of_nil. }
  destruct (isspace d); [destruct b|].
  - intros [?|?]%IH; [left; by right|by right].
  - intros [->|[?|?]%IH]%elem_of_cons; [by right|left; by right|by right].
  - intros [->|[?|?]%IH]%elem_of_cons; [left; by left|left; by right|by right].
Qed.

Lemma clean_ascii (s : str) : Forall is_ascii s → Forall is_ascii (clean s).
Proof.
  rewrite !Forall_forall. intros Hs c Hc. unfold clean in Hc.
  apply elem_of_strip, elem_of_sub_ws in Hc as [Hc| ->]; [|by vm_compute].
  unfold replace_nbsp in Hc. apply list_elem_of_fmap in Hc as (d & -> & Hd).
  destruct (d =? NBSP); [by vm_compute|by apply Hs].
Qed.

Section Case.
Context `{StrCase}.

Lemma label_lower (th : str) :
  Forall is_ascii th → lower (clean th) = clean (map ascii_lower th).
Proof.
  intros Ha. rewrite (lower_ascii _ (clean_ascii _ Ha)). symmetry. apply clean_lower.
Qed.

Lemma find_best_table_required (soup : Soup) (required_headers required_headers' : list str) :
  map lower required_headers = map lower required_headers' →
  find_best_table soup required_headers = find_best_table soup required_headers'.
Proof.
  intros Heq. induction soup as [|table soup IH]; [done|].
  simpl. rewrite Heq, IH. done.
Qed.

(** X14.  Matching of headers does not look at the case of ASCII letters:
    the label of an ASCII header cell is the normalized text of the cell in
    lower case, so header rows whose ASCII cells differ in case only have the
    same labels, and required headers that are ASCII and differ in case only
    locate the same table. *)
Theorem header_matching_ignores_ascii_case (soup : Soup) :
  (∀ th, Forall is_ascii th → lower (clean th) = clean (map ascii_lower th))
  ∧ (∀ row row',
       Forall (Forall is_ascii) (ths row) → Forall (Forall is_ascii) (ths row') →
       map (map ascii_lower) (ths row) = map (map ascii_lower) (ths row') →
       header_labels row = header_labels row')
  ∧ (∀ required_headers required_headers',
       Forall (Forall is_ascii) required_headers →
       Forall (Forall is_ascii) required_headers' →
       map (map ascii_lower) required_headers = map (map ascii_lower) required_headers' →
       find_best_table soup required_headers = find_best_table soup required_headers').
Proof.
  split_and!.
  - apply label_lower.
  - intros row row' Ha Ha' Heq. unfold header_labels.
    assert (∀ l, Forall (Forall is_ascii) l →
              map (λ th, lower (clean th)) l = map clean (map (map ascii_lower) l)) as Hl.
    { intros l Hl. rewrite map_map. apply Forall_fmap_ext.
      eapply Forall_impl; [exact Hl|]. intros th. apply label_lower. }
    by rewrite (Hl _ Ha), (Hl _ Ha'), Heq.
  - intros req req' Ha Ha' Heq. apply find_best_table_required.
    assert (∀ l, Forall (Forall is_ascii) l → map lower l = map (map ascii_lower) l) as Hl.
    { intros l Hl. apply Forall_fmap_ext.
      eapply Forall_impl; [exact Hl|]. intros th. apply lower_ascii. }
    by rewrite (Hl _ Ha), (Hl _ Ha'), Heq.
Qed.

End Case.

Section CaseExamples.
#[local] Existing Instance ascii_case.

Lemma header_matching_ignores_ascii_case_witness :
  find_best_table spaced_soup CLASSIC_HEADERS
  = find_best_table spaced_soup [lit "ENDPOINT"; lit "operation"; lit "required PRIVILEGE"].
Proof.
  destruct (header_matching_ignores_ascii_case spaced_soup) as (_ & _ & Hreq).
  apply Hreq.
  - unfold CLASSIC_HEADERS. repeat (constructor; [ascii_text|]). constructor.
  - repeat (constructor; [ascii_text|]). constructor.
  - reflexivity.
Defined.

End CaseExamples.
